(** * chord: a dispatch tree of threads (handlers), nested chords and middlewares

    Shallow embedding of [chord.go] (package [chord]) and verification of its
    registry operations, of [WrapThreads] and of [Match].

    Modelling choices, all read off the Go source:
    - a [*Chord] is a pointer: [option loc], [None] being the nil pointer; the
      chords live in a heap, so that mounting shares a node instead of copying it;
    - a [sync.Map] used with string keys is a finite map [gmap string _]; the
      claims verified here are sequential, one call at a time;
    - a [[]ThreadWrapper] is a Go slice: a pointer to a backing array kept in the
      store, and a length; the capacity is the length of the backing array.
      [make], [copy] and [append] act on the store of backing arrays, so that a
      slice returned to a caller may or may not alias the one held by a node;
    - a [Thread] and a [ThreadWrapper] are func values and may be nil; calling a
      nil func, indexing out of range or dereferencing a nil [*Chord] panics;
    - calling a wrapper returns the wrapped thread or panics, as a function of
      the thread it is given: state private to a wrapper (a variable of its
      closure that the call changes) is not modelled; what a thread does
      when called is a transformer of an abstract [World], and may panic. *)

From stdpp Require Import gmap strings list fin_maps.

(** ** What the Go runtime leaves open *)

(** [World] is whatever a running thread can observe and change (its output
    stream, the console, ...). [growslice_cap old need] is the capacity the
    runtime picks when [append] has to move a slice of capacity [old] that must
    hold [need] elements; the language only promises a "sufficiently large"
    array, which [append] below enforces by itself. *)
Class Runtime := {
  World : Type;
  growslice_cap : nat → nat → nat
}.

(** ** Results: a value or a run-time panic *)

Inductive res (A : Type) : Type :=
  | Ok (a : A)
  | Panic.
Arguments Ok {A} a.
Arguments Panic {A}.

#[export] Instance res_ret : MRet res := λ A a, Ok a.
#[export] Instance res_bind : MBind res := λ A B f r,
  match r with
  | Ok a => f a
  | Panic => Panic
  end.
#[export] Instance res_fmap : FMap res := λ A B f r,
  match r with
  | Ok a => Ok (f a)
  | Panic => Panic
  end.

Abbreviation loc := nat.

(** ** Input and Output *)

Record Input := mkInput {
  Key : string;
  Args : list string;
  Flags : gmap string string
}.

(** [Output] embeds a [*bufio.ReadWriter]: a pointer into the world. *)
Record Output := mkOutput {
  ReadWriter : option loc
}.

Section Model.
Context `{RT : Runtime}.

(** ** Threads and thread wrappers *)

(** [type Thread func(Input, Output)]; [None] is the nil func. *)
Definition Thread : Type := option (Input → Output → World → res World).

(** [type ThreadWrapper func(Thread) Thread]; [None] is the nil func. A call
    of a wrapper returns a thread or panics. *)
Definition ThreadWrapper : Type := option (Thread → res Thread).

(** [thread(input, output)] *)
Definition call (thread : Thread) (input : Input) (output : Output)
    (w : World) : res World :=
  match thread with
  | Some f => f input output w
  | None => Panic
  end.

(** ** Slices, chords and the store *)

Record slice := mkSlice {
  s_arr : option loc;
  s_len : nat
}.

(** The zero value of a slice type. *)
Definition nil_slice : slice := mkSlice None 0.

Record Chord := mkChord {
  threads : gmap string Thread;
  chords : gmap string (option loc);
  middlewares : slice
}.

(** The zero value [Chord{}]. *)
Definition empty_Chord : Chord := mkChord ∅ ∅ nil_slice.

Record Store := mkStore {
  nodes : gmap loc Chord;
  arrays : gmap loc (list ThreadWrapper)
}.

(** Computations over the store that may panic. *)
Definition M (A : Type) : Type := Store → res (A * Store).

#[export] Instance M_ret : MRet M := λ A a σ, Ok (a, σ).
#[export] Instance M_bind : MBind M := λ A B f m σ,
  match m σ with
  | Ok (a, σ') => f a σ'
  | Panic => Panic
  end.

Definition lift {A} (r : res A) : M A := λ σ,
  match r with
  | Ok a => Ok (a, σ)
  | Panic => Panic
  end.

(** The value a computation returns, the final store dropped. *)
Definition eval {A} (m : M A) (σ : Store) : res A := fst <$> m σ.

(** The store a computation leaves. *)
Definition exec {A} (m : M A) (σ : Store) : res Store := snd <$> m σ.

(** [*c]: a nil pointer dereference panics. *)
Definition deref (c : option loc) : M Chord := λ σ,
  match c with
  | Some l =>
      match nodes σ !! l with
      | Some n => Ok (n, σ)
      | None => Panic
      end
  | None => Panic
  end.

(** [*c = n] *)
Definition assign (c : option loc) (n : Chord) : M unit := λ σ,
  match c with
  | Some l => Ok (tt, mkStore (<[l := n]> (nodes σ)) (arrays σ))
  | None => Panic
  end.

(** [cap(s)] *)
Definition slice_cap (σ : Store) (s : slice) : nat :=
  match s_arr s with
  | Some a => length (default [] (arrays σ !! a))
  | None => 0
  end.

(** The elements [s[0]], ..., [s[len(s)-1]]. *)
Definition slice_elems (σ : Store) (s : slice) : list ThreadWrapper :=
  match s_arr s with
  | Some a => take (s_len s) (default [] (arrays σ !! a))
  | None => []
  end.

(** Reading a slice passed as the variadic argument [s...]. *)
Definition slice_read (s : slice) : M (list ThreadWrapper) := λ σ,
  Ok (slice_elems σ s, σ).

(** [make([]ThreadWrapper, n)]: a fresh backing array of [n] nil funcs. *)
Definition make (n : nat) : M slice := λ σ,
  let a := fresh (dom (arrays σ)) in
  Ok (mkSlice (Some a) n,
      mkStore (nodes σ) (<[a := replicate n None]> (arrays σ))).

(** [copy(dst, src)]: copies [min(len(dst), len(src))] elements and returns
    that number. *)
Definition copy (dst src : slice) : M nat := λ σ,
  let n := s_len dst `min` s_len src in
  let elems := take n (slice_elems σ src) in
  match s_arr dst with
  | Some a =>
      Ok (n, mkStore (nodes σ)
                (alter (λ old, elems ++ drop n old) a (arrays σ)))
  | None => Ok (n, σ)
  end.

(** [append(s, tw...)]: in place when the capacity suffices, otherwise into a
    fresh, sufficiently large backing array. *)
Definition append (s : slice) (tw : list ThreadWrapper) : M slice := λ σ,
  let need := s_len s + length tw in
  if decide (need ≤ slice_cap σ s) then
    match s_arr s with
    | Some a =>
        Ok (mkSlice (Some a) need,
            mkStore (nodes σ)
              (alter (λ old, take (s_len s) old ++ tw ++ drop need old)
                 a (arrays σ)))
    | None => Ok (s, σ)
    end
  else
    let a := fresh (dom (arrays σ)) in
    let newcap := need `max` growslice_cap (slice_cap σ s) need in
    Ok (mkSlice (Some a) need,
        mkStore (nodes σ)
          (<[a := slice_elems σ s ++ tw ++ replicate (newcap - need) None]>
             (arrays σ))).

(** [s[i] = w]: an index out of range panics. *)
Definition slice_store (s : slice) (i : nat) (w : ThreadWrapper) : M unit := λ σ,
  if decide (i < s_len s) then
    match s_arr s with
    | Some a => Ok (tt, mkStore (nodes σ) (alter (λ old, <[i := w]> old) a (arrays σ)))
    | None => Panic
    end
  else Panic.

(** ** WrapThreads *)

(** The loop [for i := len(tw) - 1; i > 0; i-- { thread = tw[i](thread) }],
    by recursion on [i]: nothing is done at [i = 0], where the guard [i > 0]
    fails. *)
Fixpoint WrapThreads_loop (tw : list ThreadWrapper) (i : nat)
    (thread : Thread) : res Thread :=
  match i with
  | 0 => Ok thread
  | S j =>
      match tw !! i with
      | Some (Some w) =>
          match w thread with
          | Ok wrapped => WrapThreads_loop tw j wrapped
          | Panic => Panic
          end
      | Some None => Panic
      | None => Panic
      end
  end.

(** [func WrapThreads(thread Thread, tw ...ThreadWrapper) Thread]. For an
    empty [tw] Go starts at [i = -1], where the guard fails as it does at
    [0], the value of the truncated subtraction used here. *)
Definition WrapThreads (thread : Thread) (tw : list ThreadWrapper) : res Thread :=
  WrapThreads_loop tw (length tw - 1) thread.

(** ** Methods of [*Chord] *)

(** [func (c *Chord) FetchThread(key string) (Thread, bool)] *)
Definition FetchThread (c : option loc) (key : string) : M (Thread * bool) :=
  n ← deref c;
  match threads n !! key with
  | None => mret (None, false)
  | Some thread => mret (thread, true)
  end.

(** [func (c *Chord) FetchChord(key string) ( *Chord, bool)] *)
Definition FetchChord (c : option loc) (key : string) : M (option loc * bool) :=
  n ← deref c;
  match chords n !! key with
  | None => mret (None, false)
  | Some chord => mret (chord, true)
  end.

(** [func (c *Chord) FetchMiddlewares() []ThreadWrapper] *)
Definition FetchMiddlewares (c : option loc) : M slice :=
  n ← deref c;
  md ← make (s_len (middlewares n));
  _ ← copy md (middlewares n);
  mret md.

(** [func (c *Chord) Register(key string, thread Thread, tw ...ThreadWrapper)] *)
Definition Register (c : option loc) (key : string) (thread : Thread)
    (tw : list ThreadWrapper) : M unit :=
  thread ← lift (WrapThreads thread tw);
  n ← deref c;
  assign c (mkChord (<[key := thread]> (threads n)) (chords n) (middlewares n)).

(** [func (c *Chord) Unregister(key string, thread Thread)] *)
Definition Unregister (c : option loc) (key : string) (thread : Thread) : M unit :=
  n ← deref c;
  assign c (mkChord (delete key (threads n)) (chords n) (middlewares n)).

(** [func (c *Chord) Mount(key string, chord *Chord)] *)
Definition Mount (c : option loc) (key : string) (chord : option loc) : M unit :=
  n ← deref c;
  assign c (mkChord (threads n) (<[key := chord]> (chords n)) (middlewares n)).

(** [func (c *Chord) Unmount(key string)] *)
Definition Unmount (c : option loc) (key : string) : M unit :=
  n ← deref c;
  assign c (mkChord (threads n) (delete key (chords n)) (middlewares n)).

(** [func (c *Chord) Use(tw ...ThreadWrapper)] *)
Definition Use (c : option loc) (tw : list ThreadWrapper) : M unit :=
  n ← deref c;
  s ← append (middlewares n) tw;
  assign c (mkChord (threads n) (chords n) s).

(** ** Match *)

(** [func Match(node *Chord, path []string) (Thread, bool)], by recursion on
    [path]: the recursive call is on [path[1:]]. *)
Fixpoint Match (node : option loc) (path : list string) : M (Thread * bool) :=
  match path with
  | [] => mret (None, false)
  | key :: rest =>
      match rest with
      | [] =>
          '(thread, ok) ← FetchThread node key;
          if negb ok then mret (None, false)
          else
            md ← FetchMiddlewares node;
            tw ← slice_read md;
            thread ← lift (WrapThreads thread tw);
            mret (thread, true)
      | _ :: _ =>
          '(chord, ok) ← FetchChord node key;
          if negb ok then mret (None, false)
          else
            '(thread, ok) ← Match chord rest;
            if negb ok then mret (None, false)
            else
              md ← FetchMiddlewares chord;
              tw ← slice_read md;
              thread ← lift (WrapThreads thread tw);
              mret (thread, true)
      end
  end.

(** ** RegisterWrapped (earlier revision of the file) *)



End Model.

(** ** Well-formed stores *)

Section Invariant.
Context `{RT : Runtime}.

(** A slice is well formed when it is nil and empty, or points to a backing
    array of the store that is at least as long as the slice. *)
Definition wf_slice (σ : Store) (s : slice) : Prop :=
  match s_arr s with
  | Some a =>
      match arrays σ !! a with
      | Some arr => s_len s ≤ length arr
      | None => False
      end
  | None => s_len s = 0
  end.

(** Go has no dangling slices: the middlewares of every chord are well formed. *)
Definition wf_store (σ : Store) : Prop :=
  map_Forall (λ _ n, wf_slice σ (middlewares n)) (nodes σ).

(** The contents of [c.middlewares] for the chord at [l]. *)
Definition node_middlewares (σ : Store) (l : loc) : list ThreadWrapper :=
  match nodes σ !! l with
  | Some n => slice_elems σ (middlewares n)
  | None => []
  end.

(** A slice is detached when it is well formed, not nil, and shares its
    backing array with the middlewares of no chord. *)
Definition detached (σ : Store) (md : slice) : Prop :=
  wf_slice σ md ∧ is_Some (s_arr md) ∧
  map_Forall (λ _ n, s_arr (middlewares n) ≠ s_arr md) (nodes σ).

(** One call of [Use], on any chord with any wrappers, that returns. *)
Definition Use_step (σ σ' : Store) : Prop :=
  ∃ l tw, Use (Some l) tw σ = Ok (tt, σ').

(** The chord at [l] with its child map replaced. *)
Definition with_chords (σ : Store) (l : loc) (chs : gmap string (option loc)) : Store :=
  mkStore
    (alter (λ n, mkChord (threads n) chs (middlewares n)) l (nodes σ))
    (arrays σ).

(** ** The composition the documentation describes *)

(** [w(thread)]: calling a nil wrapper panics, and the call of a wrapper may
    panic by itself. *)
Definition apply_wrapper (w : ThreadWrapper) (thread : Thread) : res Thread :=
  match w with
  | Some f => f thread
  | None => Panic
  end.

(** The pipeline "in FIFO order, where the first middleware is the outermost
    wrapper", every wrapper applied: [ws[0](ws[1](... ws[n-1](base)))]. *)
Fixpoint ComposeHandler (base : Thread) (wrappers : list ThreadWrapper) : res Thread :=
  match wrappers with
  | [] => Ok base
  | w :: ws => inner ← ComposeHandler base ws; apply_wrapper w inner
  end.

(** A lookup result [(_, true)]. *)
Definition is_found {A} (r : res (A * bool)) : Prop :=
  match r with
  | Ok (_, true) => True
  | _ => False
  end.

(** No two chords share the backing array of their middlewares (what a
    program gets that creates its chords as [&Chord{}] and never copies a
    [Chord] value). *)
Definition unshared (σ : Store) : Prop :=
  map_Forall (λ l1 n1,
    map_Forall (λ l2 n2,
      is_Some (s_arr (middlewares n1)) →
      s_arr (middlewares n1) = s_arr (middlewares n2) → l1 = l2)
      (nodes σ))
    (nodes σ).




(** The path leads somewhere in the tree: every key but the last names a
    chord mounted in the chord reached so far, and the last one names a
    handler of the chord reached. *)
Fixpoint resolves (σ : Store) (l : loc) (path : list string) : Prop :=
  match path with
  | [] => False
  | key :: rest =>
      match nodes σ !! l with
      | Some n =>
          match rest with
          | [] => is_Some (threads n !! key)
          | _ :: _ =>
              match chords n !! key with
              | Some (Some lc) => resolves σ lc rest
              | _ => False
              end
          end
      | None => False
      end
  end.

End Invariant.

(** ** A concrete runtime: the world is a log of strings *)

Definition log_runtime : Runtime :=
  {| World := list string; growslice_cap := λ old need, 2 * old |}.

Section Demo.
#[local] Existing Instance log_runtime.

(** A handler appending [s] to the log. *)
Definition say (s : string) : Thread :=
  Some (λ _ _ w, Ok (w ++ [s])).

(** A middleware appending [pre] before and [post] after the wrapped thread. *)
Definition around (pre post : string) : ThreadWrapper :=
  Some (λ next, Ok (Some (λ input output w,
    w' ← call next input output (w ++ [pre]); Ok (w' ++ [post])))).

(** A middleware whose call panics. *)
Definition panicking : ThreadWrapper := Some (λ _, Panic).

Definition demo_input : Input := mkInput "h" [] ∅.
Definition demo_output : Output := mkOutput None.

(** Resolve [path] from the chord at [root] and, as the README's [main] does,
    call the handler when one is found. *)
Definition dispatch (σ : Store) (root : loc) (path : list string) : res (option (list string)) :=
  match eval (Match (Some root) path) σ with
  | Ok (handler, true) => Some <$> call handler demo_input demo_output []
  | Ok (_, false) => Ok None
  | Panic => Panic
  end.

(** Two fresh chords [&Chord{}], at addresses 0 and 1. *)
Definition two_chords : Store :=
  mkStore (<[0 := empty_Chord]> (<[1 := empty_Chord]> ∅)) ∅.

(** The tree of the two-level example: the root (at 0) uses [a0; a1] and
    mounts, under "c", the chord at 1, which uses [b0; b1] and registers the
    handler "h". *)
Definition build_tree : M unit :=
  _ ← Use (Some 0) [around "a0" "A0"; around "a1" "A1"];
  _ ← Use (Some 1) [around "b0" "B0"; around "b1" "B1"];
  _ ← Mount (Some 0) "c" (Some 1);
  Register (Some 1) "h" (say "h") [].

Definition demo_tree : Store :=
  mkStore
    (<[0 := mkChord ∅ (<["c" := Some 1]> ∅) (mkSlice (Some 0) 2)]>
      (<[1 := mkChord (<["h" := say "h"]> ∅) ∅ (mkSlice (Some 1) 2)]> ∅))
    (<[0 := [around "a0" "A0"; around "a1" "A1"]]>
      (<[1 := [around "b0" "B0"; around "b1" "B1"]]> ∅)).

(** A chord (at 0) holding a handler under "c", no child under "c" but one
    under "d", and one middleware. *)
Definition clash_tree : Store :=
  mkStore
    (<[0 := mkChord (<["c" := say "c"]> ∅) (<["d" := Some 1]> ∅) (mkSlice (Some 0) 1)]>
      (<[1 := mkChord (<["h" := say "h"]> ∅) ∅ nil_slice]> ∅))
    (<[0 := [around "a" "A"]]> ∅).

(** A chord (at 0) under whose key "c" a nil chord is mounted. *)
Definition nil_child_tree : Store :=
  mkStore (<[0 := mkChord ∅ (<["c" := None]> ∅) nil_slice]> ∅) ∅.

(** A chord (at 0) holding the handler "h", whose second middleware panics
    when called. *)
Definition panicking_tree : Store :=
  mkStore
    (<[0 := mkChord (<["h" := say "h"]> ∅) ∅ (mkSlice (Some 0) 2)]> ∅)
    (<[0 := [around "a" "A"; panicking]]> ∅).

(** Two chords (at 0 and 2), with different handlers and middlewares,
    mounting the same chord (at 1) under "c". *)
Definition shared_child_tree : Store :=
  mkStore
    (<[0 := mkChord (<["x" := say "x"]> ∅) (<["c" := Some 1]> ∅) (mkSlice (Some 0) 2)]>
      (<[1 := mkChord (<["h" := say "h"]> ∅) ∅ (mkSlice (Some 1) 2)]>
        (<[2 := mkChord ∅ (<["c" := Some 1]> ∅) nil_slice]> ∅)))
    (<[0 := [around "a0" "A0"; around "a1" "A1"]]>
      (<[1 := [around "b0" "B0"; around "b1" "B1"]]> ∅)).

End Demo.

(** * Verification *)

Section Proofs.
Context `{RT : Runtime}.
Implicit Types (σ : Store) (s md : slice) (n : Chord) (l a : loc)
  (thread : Thread) (tw ws : list ThreadWrapper) (key : string).

Ltac unfold_M :=
  unfold eval, exec, mbind, M_bind, mret, M_ret, lift, fmap, res_fmap, res_bind, res_ret in *.

(** ** WrapThreads *)






(** C8: composing a thread, the nil thread included, with no wrappers
    returns that thread unchanged, without a panic. *)
Theorem WrapThreads_nil thread :
  WrapThreads thread [] = Ok thread ∧
  WrapThreads None [] = Ok None.
Proof.
  assert (Hloop : ∀ t, WrapThreads_loop [] (length (@nil ThreadWrapper) - 1) t = Ok t)
    by (intros t; reflexivity).
  unfold WrapThreads. split; apply Hloop.
Qed.

(** ** Slices and the store of backing arrays *)

Lemma fresh_array σ : arrays σ !! fresh (dom (arrays σ)) = None.
Proof. apply not_elem_of_dom, is_fresh. Qed.

(** The elements of a slice depend on its own backing array only. *)
Lemma slice_elems_ext σ σ' s :
  (∀ a, s_arr s = Some a → arrays σ' !! a = arrays σ !! a) →
  slice_elems σ' s = slice_elems σ s.
Proof.
  unfold slice_elems. destruct (s_arr s) as [a|]; [|done].
  intros Ha. by rewrite Ha.
Qed.

Lemma wf_slice_ext σ σ' s :
  (∀ a, s_arr s = Some a → arrays σ' !! a = arrays σ !! a) →
  wf_slice σ s → wf_slice σ' s.
Proof.
  unfold wf_slice. destruct (s_arr s) as [a|]; [|done].
  intros Ha. by rewrite Ha.
Qed.

Lemma wf_slice_length σ s :
  wf_slice σ s → length (slice_elems σ s) = s_len s.
Proof.
  unfold wf_slice, slice_elems. destruct (s_arr s) as [a|]; [|done].
  destruct (arrays σ !! a) as [arr|]; [|done]. simpl.
  intros. rewrite length_take. lia.
Qed.

Lemma wf_slice_alloc σ s a :
  wf_slice σ s → arrays σ !! a = None → s_arr s ≠ Some a.
Proof.
  unfold wf_slice. intros Hwf Ha Hs. by rewrite Hs, Ha in Hwf.
Qed.

Lemma wf_store_lookup σ l n :
  wf_store σ → nodes σ !! l = Some n → wf_slice σ (middlewares n).
Proof. intros Hwf Hl. exact (Hwf l n Hl). Qed.

(** ** FetchMiddlewares allocates a copy *)

(** The returned slice points to a fresh backing array that holds exactly
    the elements of [c.middlewares]; nothing else in the store changes. *)
Lemma FetchMiddlewares_spec σ l n :
  nodes σ !! l = Some n →
  wf_slice σ (middlewares n) →
  FetchMiddlewares (Some l) σ =
    Ok (mkSlice (Some (fresh (dom (arrays σ)))) (s_len (middlewares n)),
        mkStore (nodes σ)
          (<[fresh (dom (arrays σ)) := slice_elems σ (middlewares n)]> (arrays σ))).
Proof.
  intros Hl Hwf. unfold FetchMiddlewares, deref, make, copy. unfold_M.
  rewrite Hl. simpl. rewrite alter_insert_eq, Nat.min_id.
  do 3 f_equal.
  pose proof (fresh_array σ) as Hfresh.
  rewrite drop_replicate, Nat.sub_diag, app_nil_r.
  rewrite (slice_elems_ext σ).
  - f_equal. apply take_ge. by rewrite wf_slice_length.
  - simpl. intros a Ha. apply lookup_insert_ne. intros <-.
    by eapply wf_slice_alloc.
Qed.

(** Reading the snapshot gives back the node's middlewares. *)
Lemma FetchMiddlewares_read σ l n :
  nodes σ !! l = Some n →
  wf_slice σ (middlewares n) →
  (md ← FetchMiddlewares (Some l); slice_read md) σ =
    Ok (slice_elems σ (middlewares n),
        mkStore (nodes σ)
          (<[fresh (dom (arrays σ)) := slice_elems σ (middlewares n)]> (arrays σ))).
Proof.
  intros Hl Hwf. unfold mbind at 1. unfold M_bind.
  rewrite (FetchMiddlewares_spec _ _ _ Hl Hwf).
  unfold slice_read, slice_elems at 1. simpl.
  rewrite lookup_insert_eq. simpl. f_equal. f_equal.
  apply take_ge. by rewrite wf_slice_length.
Qed.

(** ** Match *)

(** C5: on the empty path [Match] reports not-found, whatever the node
    (even nil) and whatever the tree holds; the store is left as it was. *)
Theorem Match_empty_path (node : option loc) σ :
  Match node [] σ = Ok ((None, false), σ) ∧
  ¬ is_found (eval (Match node []) σ).
Proof. split; [reflexivity | simpl; tauto]. Qed.

(** C4: on a path of two keys or more, the first key is looked up among the
    children only. When no child is mounted under it, [Match] reports
    not-found at once: the store is untouched and neither the rest of the
    path nor the handlers of the node (one may be registered under the
    same key) play a role. *)
Theorem Match_missing_child σ l n key key' (rest : list string) :
  nodes σ !! l = Some n →
  chords n !! key = None →
  Match (Some l) (key :: key' :: rest) σ = Ok ((None, false), σ).
Proof.
  intros Hl Hc. simpl. unfold FetchChord, deref. unfold_M.
  by rewrite Hl, Hc.
Qed.

(** The single-key case, with the store it leaves: the only effect is the
    allocation of the snapshot. *)
Lemma Match_leaf σ l n key :
  nodes σ !! l = Some n →
  wf_slice σ (middlewares n) →
  Match (Some l) [key] σ =
    match threads n !! key with
    | None => Ok ((None, false), σ)
    | Some thread =>
        match WrapThreads thread (slice_elems σ (middlewares n)) with
        | Ok wrapped =>
            Ok ((wrapped, true),
                mkStore (nodes σ)
                  (<[fresh (dom (arrays σ)) := slice_elems σ (middlewares n)]>
                     (arrays σ)))
        | Panic => Panic
        end
    end.
Proof.
  intros Hl Hwf. simpl.
  unfold mbind at 1. unfold M_bind at 1.
  unfold FetchThread, deref. unfold mbind at 1. unfold M_bind at 1.
  rewrite Hl. destruct (threads n !! key) as [thread|]; [|done]. simpl.
  pose proof (FetchMiddlewares_read σ l n Hl Hwf) as Hread.
  unfold mbind, M_bind in Hread |- *.
  destruct (FetchMiddlewares (Some l) σ) as [[md σ1]|]; [|done].
  rewrite Hread. unfold lift, mret, M_ret.
  by destruct (WrapThreads thread _).
Qed.

Lemma wf_store_with_chords σ l chs :
  wf_store σ → wf_store (with_chords σ l chs).
Proof.
  intros Hwf l' n'. unfold with_chords. simpl.
  rewrite lookup_alter. case_decide as Hll.
  - subst l'. destruct (nodes σ !! l) as [n|] eqn:Hn; simpl; [|done].
    intros [= <-]. exact (Hwf l n Hn).
  - intros Hn. exact (Hwf l' n' Hn).
Qed.

(** X22: the single-key case in full: [Match] looks the key up among the handlers
    of the node; it reports not-found exactly when none is stored there, and
    otherwise passes the stored handler, with the whole middleware snapshot
    of the node, to [WrapThreads]. When the call returns, found is reported
    exactly when a handler is stored. The children of the node play no
    role. *)
Lemma Match_single_key σ l n key :
  wf_store σ →
  nodes σ !! l = Some n →
  eval (Match (Some l) [key]) σ =
    match threads n !! key with
    | None => Ok (None, false)
    | Some thread =>
        wrapped ← WrapThreads thread (slice_elems σ (middlewares n));
        Ok (wrapped, true)
    end
  ∧ (eval (Match (Some l) [key]) σ = Ok (None, false) ↔ threads n !! key = None)
  ∧ (∀ r, eval (Match (Some l) [key]) σ = Ok r →
          (is_found (Ok r) ↔ is_Some (threads n !! key)))
  ∧ (∀ chs, eval (Match (Some l) [key]) (with_chords σ l chs) =
            eval (Match (Some l) [key]) σ).
Proof.
  intros Hwf Hl.
  assert (Heq : ∀ σ0 n0, nodes σ0 !! l = Some n0 → wf_slice σ0 (middlewares n0) →
    eval (Match (Some l) [key]) σ0 =
      match threads n0 !! key with
      | None => Ok (None, false)
      | Some thread =>
          wrapped ← WrapThreads thread (slice_elems σ0 (middlewares n0));
          Ok (wrapped, true)
      end).
  { intros σ0 n0 Hl0 Hwf0. unfold eval. rewrite (Match_leaf _ _ _ _ Hl0 Hwf0).
    destruct (threads n0 !! key) as [thread|]; [|done].
    unfold mbind, res_bind. by destruct (WrapThreads thread _). }
  pose proof (wf_store_lookup _ _ _ Hwf Hl) as Hs.
  rewrite (Heq σ n Hl Hs).
  split; [done|]. split; [|split].
  - destruct (threads n !! key) as [thread|]; [|done].
    unfold mbind, res_bind.
    destruct (WrapThreads thread _); split; done.
  - intros r. destruct (threads n !! key) as [thread|]; simpl.
    + unfold mbind, res_bind.
      destruct (WrapThreads thread _) as [wrapped|]; [|done].
      intros [= <-]. simpl. split; eauto.
    + intros [= <-]. simpl. split; [tauto | by intros [? ?]].
  - intros chs.
    assert (Hl' : nodes (with_chords σ l chs) !! l =
      Some (mkChord (threads n) chs (middlewares n))).
    { unfold with_chords. simpl. by rewrite lookup_alter_eq, Hl. }
    rewrite (Heq _ _ Hl'); [done|].
    exact (wf_store_lookup _ _ _ (wf_store_with_chords _ _ chs Hwf) Hl').
Qed.

(** ** The registry operations *)

Lemma Store_eta σ : mkStore (nodes σ) (arrays σ) = σ.
Proof. by destruct σ. Qed.

Lemma FetchThread_spec σ l n key :
  nodes σ !! l = Some n →
  FetchThread (Some l) key σ =
    Ok (match threads n !! key with
        | Some thread => (thread, true)
        | None => (None, false)
        end, σ).
Proof.
  intros Hl. unfold FetchThread, deref. unfold_M. rewrite Hl.
  by destruct (threads n !! key).
Qed.

Lemma Register_spec σ l n key thread :
  nodes σ !! l = Some n →
  Register (Some l) key thread [] σ =
    Ok (tt, mkStore
              (<[l := mkChord (<[key := thread]> (threads n)) (chords n) (middlewares n)]>
                 (nodes σ))
              (arrays σ)).
Proof.
  intros Hl. unfold Register, deref, assign. unfold_M. simpl. by rewrite Hl.
Qed.

Lemma Unregister_spec σ l n key thread :
  nodes σ !! l = Some n →
  Unregister (Some l) key thread σ =
    Ok (tt, mkStore
              (<[l := mkChord (delete key (threads n)) (chords n) (middlewares n)]>
                 (nodes σ))
              (arrays σ)).
Proof.
  intros Hl. unfold Unregister, deref, assign. unfold_M. by rewrite Hl.
Qed.

Lemma Unmount_spec σ l n key :
  nodes σ !! l = Some n →
  Unmount (Some l) key σ =
    Ok (tt, mkStore
              (<[l := mkChord (threads n) (delete key (chords n)) (middlewares n)]>
                 (nodes σ))
              (arrays σ)).
Proof.
  intros Hl. unfold Unmount, deref, assign. unfold_M. by rewrite Hl.
Qed.

(** C6: [Unregister] deletes the entry of the key from the handlers of the
    node and never looks at its thread argument: whatever thread is passed,
    the one stored or any other, the resulting store is the same, the key
    has no handler in it and the other keys are as before. *)
Theorem Unregister_by_key σ l n key :
  nodes σ !! l = Some n →
  ∃ σ',
    (∀ thread, Unregister (Some l) key thread σ = Ok (tt, σ')) ∧
    nodes σ' !! l =
      Some (mkChord (delete key (threads n)) (chords n) (middlewares n)) ∧
    eval (FetchThread (Some l) key) σ' = Ok (None, false) ∧
    (∀ key', key' ≠ key →
       eval (FetchThread (Some l) key') σ' = eval (FetchThread (Some l) key') σ).
Proof.
  intros Hl. eexists. split; [|split; [|split]].
  - intros thread. by apply Unregister_spec.
  - simpl. apply lookup_insert_eq.
  - unfold eval. erewrite FetchThread_spec by (simpl; apply lookup_insert_eq).
    simpl. by rewrite lookup_delete_eq.
  - intros key' Hne. unfold eval.
    erewrite FetchThread_spec by (simpl; apply lookup_insert_eq).
    rewrite (FetchThread_spec σ l n) by done.
    simpl. by rewrite lookup_delete_ne.
Qed.

(** C7: registering [B] under a key that already holds [A] (no wrappers in
    either call) overwrites it: [FetchThread] then returns [B], found. *)
Theorem Register_overwrites σ l n key (A B : Thread) :
  nodes σ !! l = Some n →
  eval (_ ← Register (Some l) key A [];
        _ ← Register (Some l) key B [];
        FetchThread (Some l) key) σ = Ok (B, true).
Proof.
  intros Hl. unfold eval. unfold mbind at 1. unfold M_bind.
  rewrite (Register_spec _ _ _ _ _ Hl).
  unfold mbind at 1. unfold M_bind.
  erewrite Register_spec by (simpl; apply lookup_insert_eq).
  erewrite FetchThread_spec by (simpl; apply lookup_insert_eq).
  simpl. by rewrite lookup_insert_eq.
Qed.

(** C10: on a key that has no entry, [Unregister] (for the handlers) and
    [Unmount] (for the children) return normally and leave the whole store,
    hence the handlers, the children and the middlewares of the node, as
    they were. *)
Theorem Unregister_Unmount_absent σ l n key :
  nodes σ !! l = Some n →
  (threads n !! key = None →
     ∀ thread, Unregister (Some l) key thread σ = Ok (tt, σ)) ∧
  (chords n !! key = None → Unmount (Some l) key σ = Ok (tt, σ)).
Proof.
  intros Hl. split.
  - intros Hk thread. rewrite (Unregister_spec _ _ _ _ _ Hl).
    rewrite delete_id by done. destruct n; simpl.
    rewrite insert_id by done. by rewrite Store_eta.
  - intros Hk. rewrite (Unmount_spec _ _ _ _ Hl).
    rewrite delete_id by done. destruct n; simpl.
    rewrite insert_id by done. by rewrite Store_eta.
Qed.

(** ** The registry operations keep the store well formed *)

Lemma wf_store_assign σ l n n' :
  wf_store σ →
  nodes σ !! l = Some n →
  middlewares n' = middlewares n →
  wf_store (mkStore (<[l := n']> (nodes σ)) (arrays σ)).
Proof.
  intros Hwf Hl Hmw l' n0. simpl. rewrite lookup_insert. case_decide as Hll.
  - intros [= <-]. rewrite Hmw. exact (Hwf l n Hl).
  - intros Hl'. exact (Hwf l' n0 Hl').
Qed.

Lemma registry_ops_wf σ l n key thread (chord : option loc) :
  wf_store σ →
  nodes σ !! l = Some n →
  (∀ σ', Register (Some l) key thread [] σ = Ok (tt, σ') → wf_store σ') ∧
  (∀ σ', Unregister (Some l) key thread σ = Ok (tt, σ') → wf_store σ') ∧
  (∀ σ', Mount (Some l) key chord σ = Ok (tt, σ') → wf_store σ') ∧
  (∀ σ', Unmount (Some l) key σ = Ok (tt, σ') → wf_store σ').
Proof.
  intros Hwf Hl. repeat split; intros σ'.
  - rewrite (Register_spec _ _ _ _ _ Hl). intros [= <-].
    by eapply wf_store_assign.
  - rewrite (Unregister_spec _ _ _ _ _ Hl). intros [= <-].
    by eapply wf_store_assign.
  - unfold Mount, deref, assign. unfold_M. rewrite Hl. intros [= <-].
    by eapply wf_store_assign.
  - rewrite (Unmount_spec _ _ _ _ Hl). intros [= <-].
    by eapply wf_store_assign.
Qed.

(** ** append and Use *)

(** [append] always returns. It leaves the chords alone, touches no backing
    array other than the one of its argument, keeps the length of every
    backing array, and on a well-formed slice yields a well-formed slice
    holding the old elements followed by the new ones. *)
Lemma append_spec σ s tw :
  ∃ s' σ',
    append s tw σ = Ok (s', σ') ∧
    nodes σ' = nodes σ ∧
    (∀ a, is_Some (arrays σ !! a) → s_arr s ≠ Some a →
          arrays σ' !! a = arrays σ !! a) ∧
    (∀ a arr, arrays σ !! a = Some arr →
          ∃ arr', arrays σ' !! a = Some arr' ∧ length arr' = length arr) ∧
    (wf_slice σ s →
       wf_slice σ' s' ∧ slice_elems σ' s' = slice_elems σ s ++ tw) ∧
    (s_arr s' = s_arr s ∨ ∃ a, s_arr s' = Some a ∧ arrays σ !! a = None).
Proof.
  unfold append. case_decide as Hcap.
  - destruct (s_arr s) as [a|] eqn:Hs.
    + eexists _, _. split; [done|]. simpl. split; [done|].
      split; [|split; [|split; [|by left]]].
      * intros a' _ Hne. apply lookup_alter_ne. congruence.
      * intros a' arr Ha'. rewrite lookup_alter. case_decide as Haa.
        -- subst a'. rewrite Ha'. simpl. eexists. split; [done|].
           unfold slice_cap in Hcap. rewrite Hs, Ha' in Hcap. simpl in Hcap.
           rewrite !length_app, length_take, length_drop. lia.
        -- eauto.
      * unfold wf_slice, slice_elems. rewrite Hs. simpl.
        rewrite lookup_alter_eq.
        destruct (arrays σ !! a) as [arr|] eqn:Ha; [|done]. simpl.
        intros Hlen.
        unfold slice_cap in Hcap. rewrite Hs, Ha in Hcap. simpl in Hcap.
        split.
        -- rewrite !length_app, length_take, length_drop. lia.
        -- rewrite app_assoc. apply take_app_length'.
           rewrite length_app, length_take. lia.
    + unfold slice_cap in Hcap. rewrite Hs in Hcap.
      assert (s_len s = 0) as Hlen by lia.
      assert (tw = []) as -> by (apply length_zero_iff_nil; lia).
      eexists _, _. split; [done|]. split; [done|]. split; [done|].
      split; [eauto|]. split; [|by left]. intros Hwf. split; [done|].
      unfold slice_elems. by rewrite Hs.
  - pose proof (fresh_array σ) as Hfresh.
    eexists _, _. split; [done|]. simpl. split; [done|].
    split; [|split; [|split; [|right; eauto]]].
    + intros a' [arr Ha'] _. apply lookup_insert_ne. congruence.
    + intros a' arr Ha'. exists arr. split; [|done].
      rewrite lookup_insert_ne; [done|congruence].
    + intros Hwf. pose proof (wf_slice_length _ _ Hwf) as Hlen.
      split.
      * unfold wf_slice. simpl. rewrite lookup_insert_eq.
        rewrite !length_app, length_replicate, Hlen. lia.
      * unfold slice_elems at 1. simpl. rewrite lookup_insert_eq. simpl.
        rewrite app_assoc. apply take_app_length'.
        rewrite length_app. lia.
Qed.

(** [Use] always returns on an existing chord: it keeps the store well
    formed, appends [tw] to the middlewares of the chord, and touches no
    backing array other than the one its middlewares point to. *)
Lemma Use_spec σ l n tw :
  wf_store σ →
  nodes σ !! l = Some n →
  ∃ σ',
    Use (Some l) tw σ = Ok (tt, σ') ∧
    wf_store σ' ∧
    node_middlewares σ' l = node_middlewares σ l ++ tw ∧
    (∀ a, is_Some (arrays σ !! a) → s_arr (middlewares n) ≠ Some a →
          arrays σ' !! a = arrays σ !! a) ∧
    (∃ s', nodes σ' = <[l := mkChord (threads n) (chords n) s']> (nodes σ) ∧
           (s_arr s' = s_arr (middlewares n) ∨
            ∃ a, s_arr s' = Some a ∧ arrays σ !! a = None)).
Proof.
  intros Hwf Hl.
  destruct (append_spec σ (middlewares n) tw)
    as (s' & σ1 & Happ & Hnodes & Hframe & Hkeep & Hres & Harr).
  destruct (Hres (wf_store_lookup _ _ _ Hwf Hl)) as [Hwf' Helems].
  unfold Use, deref, assign. unfold_M. rewrite Hl, Happ.
  eexists. split; [done|]. split; [|split; [|split]].
  - intros l' n'. simpl. rewrite lookup_insert. case_decide as Hll.
    + intros [= <-]. simpl. exact Hwf'.
    + rewrite Hnodes. intros Hl'. pose proof (Hwf l' n' Hl') as Hs.
      unfold wf_slice in Hs |- *. simpl.
      destruct (s_arr (middlewares n')) as [a|]; [|done].
      destruct (arrays σ !! a) as [arr|] eqn:Ha; [|done].
      destruct (Hkeep a arr Ha) as (arr' & -> & ->). done.
  - unfold node_middlewares. simpl. rewrite lookup_insert_eq, Hl. simpl.
    exact Helems.
  - exact Hframe.
  - exists s'. simpl. by rewrite Hnodes.
Qed.

(** ** Snapshots do not alias the middlewares of a chord *)

Lemma detached_frame σ σ' md :
  wf_store σ → detached σ md →
  nodes σ' = nodes σ →
  (∀ a, is_Some (arrays σ !! a) → s_arr md ≠ Some a →
        arrays σ' !! a = arrays σ !! a) →
  ∀ l, node_middlewares σ' l = node_middlewares σ l.
Proof.
  intros Hwf (_ & _ & Hdet) Hnodes Hframe l.
  unfold node_middlewares. rewrite Hnodes.
  destruct (nodes σ !! l) as [n|] eqn:Hl; [|done].
  apply slice_elems_ext. intros a Ha. apply Hframe.
  - pose proof (Hwf l n Hl) as Hs. unfold wf_slice in Hs. rewrite Ha in Hs.
    by destruct (arrays σ !! a).
  - intros Hmd. apply (Hdet l n Hl). congruence.
Qed.

(** The snapshot returned by [FetchMiddlewares] is detached. *)
Lemma FetchMiddlewares_detached σ l n md σ1 :
  wf_store σ →
  nodes σ !! l = Some n →
  FetchMiddlewares (Some l) σ = Ok (md, σ1) →
  wf_store σ1 ∧ detached σ1 md ∧ nodes σ1 = nodes σ ∧
  slice_elems σ1 md = node_middlewares σ l ∧
  ∀ l', node_middlewares σ1 l' = node_middlewares σ l'.
Proof.
  intros Hwf Hl. pose proof (wf_store_lookup _ _ _ Hwf Hl) as Hs.
  rewrite (FetchMiddlewares_spec _ _ _ Hl Hs). intros [= <- <-].
  pose proof (fresh_array σ) as Hfresh.
  assert (Hext : ∀ s, wf_slice σ s → ∀ a, s_arr s = Some a →
    <[fresh (dom (arrays σ)) := slice_elems σ (middlewares n)]> (arrays σ) !! a
      = arrays σ !! a).
  { intros s Hwfs a Ha. apply lookup_insert_ne. intros <-.
    by eapply wf_slice_alloc. }
  split; [|split; [|split; [done|split]]].
  - intros l' n' Hl'. eapply wf_slice_ext; [|exact (Hwf l' n' Hl')].
    simpl. eauto.
  - split; [|split; [by eexists|]].
    + unfold wf_slice. simpl. rewrite lookup_insert_eq.
      by rewrite wf_slice_length.
    + intros l' n' Hl'. simpl. intros Heq.
      eapply wf_slice_alloc; [exact (Hwf l' n' Hl')|exact Hfresh|done].
  - unfold slice_elems at 1, node_middlewares. simpl.
    rewrite lookup_insert_eq, Hl. simpl.
    apply take_ge. by rewrite wf_slice_length.
  - intros l'. unfold node_middlewares. simpl.
    destruct (nodes σ !! l') as [n'|] eqn:Hl'; [|done].
    apply slice_elems_ext. simpl. eauto.
Qed.

(** A call of [Use] keeps a detached slice detached and its elements as
    they were. *)
Lemma Use_detached σ σ' md :
  wf_store σ → detached σ md → Use_step σ σ' →
  wf_store σ' ∧ detached σ' md ∧ slice_elems σ' md = slice_elems σ md.
Proof.
  intros Hwf (Hmd & [a Ha] & Hdet) (l & tw & HUse).
  destruct (nodes σ !! l) as [n|] eqn:Hl.
  2:{ unfold Use, deref in HUse. unfold_M. by rewrite Hl in HUse. }
  destruct (Use_spec σ l n tw Hwf Hl)
    as (σ2 & HUse' & Hwf' & _ & Hframe & s' & Hnodes & Harr).
  rewrite HUse in HUse'. injection HUse' as <-.
  assert (Ha' : arrays σ' !! a = arrays σ !! a).
  { apply Hframe.
    - unfold wf_slice in Hmd. rewrite Ha in Hmd. by destruct (arrays σ !! a).
    - intros Heq. apply (Hdet l n Hl). congruence. }
  split; [done|]. split; [split; [|split; [by eexists|]]|].
  - eapply wf_slice_ext; [|exact Hmd]. intros a0 Ha0.
    rewrite Ha in Ha0. by injection Ha0 as <-.
  - intros l' n'. rewrite Hnodes, lookup_insert. case_decide as Hll.
    + intros [= <-]. simpl. destruct Harr as [->|(a0 & -> & Hnew)].
      * exact (Hdet l n Hl).
      * rewrite Ha. intros [= ->]. eapply wf_slice_alloc; done.
    + apply Hdet.
  - apply slice_elems_ext. intros a0 Ha0.
    rewrite Ha in Ha0. by injection Ha0 as <-.
Qed.

(** Any number of later calls of [Use] leaves a detached slice as it was. *)
Lemma Use_steps_detached σ σ' md :
  wf_store σ → detached σ md → rtc Use_step σ σ' →
  slice_elems σ' md = slice_elems σ md.
Proof.
  intros Hwf Hdet Hsteps. induction Hsteps as [σ|σ σ1 σ2 Hstep _ IH]; [done|].
  destruct (Use_detached _ _ _ Hwf Hdet Hstep) as (Hwf1 & Hdet1 & <-).
  by apply IH.
Qed.

Lemma slice_store_spec σ md i w :
  is_Some (s_arr md) → i < s_len md →
  ∃ σ', slice_store md i w σ = Ok (tt, σ') ∧
        nodes σ' = nodes σ ∧
        (∀ a, s_arr md ≠ Some a → arrays σ' !! a = arrays σ !! a) ∧
        (wf_slice σ md → slice_elems σ' md = <[i := w]> (slice_elems σ md)).
Proof.
  intros [a Ha] Hi. unfold slice_store. rewrite decide_True by done.
  rewrite Ha. eexists. split; [done|]. simpl. split; [done|]. split.
  - intros a' Hne. apply lookup_alter_ne. congruence.
  - unfold wf_slice, slice_elems. rewrite Ha. simpl. rewrite lookup_alter_eq.
    destruct (arrays σ !! a) as [arr|]; [|done]. simpl. intros Hlen.
    by rewrite take_insert_lt.
Qed.

(** C9: [FetchMiddlewares] returns a copy of the middlewares of the chord,
    not a view of them. The call returns a slice holding the elements the
    chord has at that time; later calls of [Use], on this chord or any other
    and however many, return and leave the elements of that slice as they
    were while the chord itself gets the new wrappers; and storing into the
    returned slice or appending to it changes the middlewares of no chord. *)
Theorem FetchMiddlewares_copy σ l n :
  wf_store σ →
  nodes σ !! l = Some n →
  ∃ md σ1,
    FetchMiddlewares (Some l) σ = Ok (md, σ1) ∧
    slice_elems σ1 md = node_middlewares σ l ∧
    node_middlewares σ1 l = node_middlewares σ l ∧
    (∀ tw, ∃ σ2,
       Use (Some l) tw σ1 = Ok (tt, σ2) ∧
       node_middlewares σ2 l = node_middlewares σ l ++ tw ∧
       slice_elems σ2 md = node_middlewares σ l) ∧
    (∀ σ2, rtc Use_step σ1 σ2 → slice_elems σ2 md = node_middlewares σ l) ∧
    (∀ i w, i < s_len md → ∃ σ2,
       slice_store md i w σ1 = Ok (tt, σ2) ∧
       slice_elems σ2 md = <[i := w]> (node_middlewares σ l) ∧
       ∀ l', node_middlewares σ2 l' = node_middlewares σ l') ∧
    (∀ tw, ∃ md' σ2,
       append md tw σ1 = Ok (md', σ2) ∧
       slice_elems σ2 md' = node_middlewares σ l ++ tw ∧
       ∀ l', node_middlewares σ2 l' = node_middlewares σ l').
Proof.
  intros Hwf Hl. pose proof (wf_store_lookup _ _ _ Hwf Hl) as Hs.
  eexists _, _. split; [by apply FetchMiddlewares_spec|].
  destruct (FetchMiddlewares_detached σ l n _ _ Hwf Hl
              (FetchMiddlewares_spec _ _ _ Hl Hs))
    as (Hwf1 & Hdet1 & Hnodes1 & Hcopy & Hsame).
  set (md := mkSlice _ _) in *. set (σ1 := mkStore _ _) in *.
  split; [done|]. split; [done|]. split; [|split; [|split]].
  - intros tw.
    assert (Hl1 : nodes σ1 !! l = Some n) by by rewrite Hnodes1.
    destruct (Use_spec σ1 l n tw Hwf1 Hl1) as (σ2 & HUse & _ & Happ & _).
    exists σ2. split; [done|]. split; [by rewrite Happ, Hsame|].
    rewrite <- Hcopy.
    apply (Use_steps_detached σ1 σ2 md Hwf1 Hdet1).
    apply rtc_once. by exists l, tw.
  - intros σ2 Hsteps. rewrite <- Hcopy. by apply Use_steps_detached.
  - intros i w Hi. destruct Hdet1 as (Hmd & Hptr & Hdet).
    destruct (slice_store_spec σ1 md i w Hptr Hi)
      as (σ2 & Hstore & Hnodes2 & Hframe & Helems).
    exists σ2. split; [done|]. split; [by rewrite Helems, Hcopy|].
    intros l'. rewrite <- Hsame.
    apply (detached_frame σ1 σ2 md); [done|done|done|]. intros a _. apply Hframe.
  - intros tw. destruct Hdet1 as (Hmd & Hptr & Hdet).
    destruct (append_spec σ1 md tw)
      as (md' & σ2 & Happ & Hnodes2 & Hframe & _ & Hres & _).
    destruct (Hres Hmd) as [_ Helems].
    exists md', σ2. split; [done|]. split; [by rewrite Helems, Hcopy|].
    intros l'. rewrite <- Hsame.
    by apply (detached_frame σ1 σ2 md).
Qed.

(** ** Match on longer paths *)

(** The recursive case of [Match], unfolded once. *)
Lemma Match_unfold (node : option loc) key key' (rest : list string) :
  Match node (key :: key' :: rest) =
    ('(chord, ok) ← FetchChord node key;
     if negb ok then mret (None, false)
     else
       '(thread, ok) ← Match chord (key' :: rest);
       if negb ok then mret (None, false)
       else
         md ← FetchMiddlewares chord;
         tw ← slice_read md;
         thread ← lift (WrapThreads thread tw);
         mret (thread, true)).
Proof. reflexivity. Qed.

Lemma FetchChord_spec σ l n key :
  nodes σ !! l = Some n →
  FetchChord (Some l) key σ =
    Ok (match chords n !! key with
        | Some chord => (chord, true)
        | None => (None, false)
        end, σ).
Proof.
  intros Hl. unfold FetchChord, deref. unfold_M. rewrite Hl.
  by destruct (chords n !! key).
Qed.

(** Reading a snapshot of the chord at [l] and wrapping with it. *)
Lemma wrap_with_snapshot σ l n thread :
  nodes σ !! l = Some n →
  wf_slice σ (middlewares n) →
  (md ← FetchMiddlewares (Some l);
   tw ← slice_read md;
   wrapped ← lift (WrapThreads thread tw);
   mret (wrapped, true)) σ =
    match WrapThreads thread (slice_elems σ (middlewares n)) with
    | Ok wrapped =>
        Ok ((wrapped, true),
            mkStore (nodes σ)
              (<[fresh (dom (arrays σ)) := slice_elems σ (middlewares n)]>
                 (arrays σ)))
    | Panic => Panic
    end.
Proof.
  intros Hl Hwf.
  pose proof (FetchMiddlewares_read σ l n Hl Hwf) as Hread.
  unfold mbind, M_bind in Hread |- *.
  destruct (FetchMiddlewares (Some l) σ) as [[md σ1]|]; [|done].
  rewrite Hread. unfold lift, mret, M_ret.
  by destruct (WrapThreads thread _).
Qed.

Lemma alloc_frame σ arr :
  wf_store σ →
  wf_store (mkStore (nodes σ) (<[fresh (dom (arrays σ)) := arr]> (arrays σ))) ∧
  ∀ a, is_Some (arrays σ !! a) →
       <[fresh (dom (arrays σ)) := arr]> (arrays σ) !! a = arrays σ !! a.
Proof.
  intros Hwf. pose proof (fresh_array σ) as Hfresh.
  assert (Hext : ∀ a, is_Some (arrays σ !! a) →
    <[fresh (dom (arrays σ)) := arr]> (arrays σ) !! a = arrays σ !! a).
  { intros a [x Ha]. apply lookup_insert_ne. congruence. }
  split; [|done]. intros l n Hl.
  eapply wf_slice_ext; [|exact (Hwf l n Hl)]. simpl.
  intros a Ha. apply Hext.
  pose proof (Hwf l n Hl) as Hs. unfold wf_slice in Hs. rewrite Ha in Hs.
  by destruct (arrays σ !! a).
Qed.

(** [Match] only allocates snapshots: the chords and the backing arrays
    that exist when it is called are left as they were. *)
Lemma Match_frame (path : list string) (node : option loc) σ r σ' :
  wf_store σ →
  Match node path σ = Ok (r, σ') →
  wf_store σ' ∧ nodes σ' = nodes σ ∧
  ∀ a, is_Some (arrays σ !! a) → arrays σ' !! a = arrays σ !! a.
Proof.
  revert node σ r σ'.
  induction path as [|key rest IH]; intros node σ r σ' Hwf.
  { intros [= <- <-]. done. }
  destruct node as [l|]; [|by destruct rest].
  destruct (nodes σ !! l) as [n|] eqn:Hl.
  2:{ destruct rest; simpl; unfold FetchThread, FetchChord, deref; unfold_M;
      by rewrite Hl. }
  pose proof (wf_store_lookup _ _ _ Hwf Hl) as Hs.
  destruct rest as [|key' rest].
  - rewrite (Match_leaf _ _ _ _ Hl Hs).
    destruct (threads n !! key) as [thread|]; [|by intros [= <- <-]].
    destruct (WrapThreads thread _); [|done]. intros [= <- <-].
    destruct (alloc_frame σ (slice_elems σ (middlewares n)) Hwf). done.
  - rewrite Match_unfold. unfold mbind at 1. unfold M_bind at 1.
    rewrite (FetchChord_spec _ _ _ _ Hl).
    destruct (chords n !! key) as [chord|]; cbn [negb]; [|by intros [= <- <-]].
    unfold mbind at 1. unfold M_bind at 1.
    destruct (Match chord (key' :: rest) σ) as [[[thread ok] σ1]|] eqn:Hrec;
      [|done].
    destruct (IH _ _ _ _ Hwf Hrec) as (Hwf1 & Hnodes1 & Hframe1).
    destruct ok; cbn [negb]; [|by intros [= <- <-]].
    destruct chord as [lc|]; [|done].
    destruct (nodes σ1 !! lc) as [nc|] eqn:Hlc.
    2:{ unfold FetchMiddlewares, deref. unfold_M. by rewrite Hlc. }
    rewrite (wrap_with_snapshot _ _ _ _ Hlc (wf_store_lookup _ _ _ Hwf1 Hlc)).
    destruct (WrapThreads thread _) as [wrapped|]; [|done]. intros [= <- <-].
    destruct (alloc_frame σ1 (slice_elems σ1 (middlewares nc)) Hwf1)
      as [Hwf2 Hframe2].
    split; [done|]. split; [done|]. simpl. intros a' Ha'.
    rewrite Hframe2; [by apply Hframe1|]. rewrite Hframe1; done.
Qed.

(** X20: what [Match] does on a path of two keys or more, once the child is found
    and the rest of the path resolves in it: the handler that comes back from
    the child, already wrapped there, is passed to [WrapThreads] with the
    middlewares of the child once more; the middlewares of the node
    itself are not read. *)
Lemma Match_nested σ l n key key' (rest : list string) lc nc thread :
  wf_store σ →
  nodes σ !! l = Some n →
  chords n !! key = Some (Some lc) →
  nodes σ !! lc = Some nc →
  eval (Match (Some lc) (key' :: rest)) σ = Ok (thread, true) →
  eval (Match (Some l) (key :: key' :: rest)) σ =
    (wrapped ← WrapThreads thread (slice_elems σ (middlewares nc));
     Ok (wrapped, true)).
Proof.
  intros Hwf Hl Hkey Hlc Hrec. unfold eval in *.
  rewrite Match_unfold. unfold mbind at 1. unfold M_bind at 1.
  rewrite (FetchChord_spec _ _ _ _ Hl), Hkey. cbn [negb].
  unfold mbind at 1. unfold M_bind at 1.
  destruct (Match (Some lc) (key' :: rest) σ) as [[[thread' ok] σ1]|] eqn:HM;
    [|done].
  injection Hrec as -> ->. cbn [negb].
  destruct (Match_frame _ _ _ _ _ Hwf HM) as (Hwf1 & Hnodes1 & Hframe1).
  assert (Hlc1 : nodes σ1 !! lc = Some nc) by by rewrite Hnodes1.
  rewrite (wrap_with_snapshot _ _ _ _ Hlc1 (wf_store_lookup _ _ _ Hwf1 Hlc1)).
  rewrite (slice_elems_ext σ σ1).
  - unfold mbind, res_bind. by destruct (WrapThreads thread _).
  - intros a Ha. apply Hframe1.
    pose proof (wf_store_lookup _ _ _ Hwf Hlc) as Hs.
    unfold wf_slice in Hs. rewrite Ha in Hs. by destruct (arrays σ !! a).
Qed.

End Proofs.

(** * The code on concrete trees *)

Section Examples.
#[local] Existing Instance log_runtime.

Ltac solve_wf_store :=
  unfold wf_store; simpl;
  repeat (apply map_Forall_insert_2; [vm_compute; lia|]);
  apply map_Forall_empty.

Lemma two_chords_wf : wf_store two_chords.
Proof. solve_wf_store. Qed.

Lemma demo_tree_wf : wf_store demo_tree.
Proof. solve_wf_store. Qed.

Lemma clash_tree_wf : wf_store clash_tree.
Proof. solve_wf_store. Qed.

(** The two-level tree is the one the API builds from two empty chords. *)
Lemma build_tree_demo_tree : exec build_tree two_chords = Ok demo_tree.
Proof. vm_compute. reflexivity. Qed.

(** C1: [WrapThreads] on the handler "h" and the wrappers [a; b]. The
    documented pipeline has [a] outermost and logs a, b, h, B, A; the code
    never applies [a], the first wrapper: it returns [b(h)], which logs
    b, h, B. *)
Theorem WrapThreads_skips_first_wrapper :
  WrapThreads (say "h") [around "a" "A"; around "b" "B"] =
    ComposeHandler (say "h") [around "b" "B"] ∧
  (wrapped ← WrapThreads (say "h") [around "a" "A"; around "b" "B"];
   call wrapped demo_input demo_output []) = Ok ["b"; "h"; "B"] ∧
  (wrapped ← ComposeHandler (say "h") [around "a" "A"; around "b" "B"];
   call wrapped demo_input demo_output []) = Ok ["a"; "b"; "h"; "B"; "A"].
Proof. repeat split; vm_compute; reflexivity. Qed.

(** C2: [Match] on the two-level tree and the path c, h. Each node's
    middlewares applied once, the root's outermost, would log
    a0, a1, b0, b1, h, B1, B0, A1, A0. The code wraps the handler with the
    middlewares of the child twice (first wrapper skipped each time) and with
    those of the root never: the resolved handler logs b1, b1, h, B1, B1. *)
Theorem Match_two_levels_wraps_child_twice :
  fst <$> eval (Match (Some 0) ["c"; "h"]) demo_tree =
    ComposeHandler (say "h") [around "b1" "B1"; around "b1" "B1"] ∧
  dispatch demo_tree 0 ["c"; "h"] = Ok (Some ["b1"; "b1"; "h"; "B1"; "B1"]) ∧
  (inner ← ComposeHandler (say "h") [around "b0" "B0"; around "b1" "B1"];
   wrapped ← ComposeHandler inner [around "a0" "A0"; around "a1" "A1"];
   call wrapped demo_input demo_output []) =
    Ok ["a0"; "a1"; "b0"; "b1"; "h"; "B1"; "B0"; "A1"; "A0"].
Proof. repeat split; vm_compute; reflexivity. Qed.

(** C3: [Match] on a single key of a chord with middlewares. On the chord
    that holds the handler c and uses the one middleware a, the handler
    composed with the whole snapshot would log a, c, A; the code finds the
    handler and returns it bare, logging c. On the chord that holds the
    handler h and uses b0 and b1, the composition would log
    b0, b1, h, B1, B0; the code returns b1(h), logging b1, h, B1. *)
Theorem Match_single_key_skips_first_middleware :
  eval (Match (Some 0) ["c"]) clash_tree = Ok (say "c", true) ∧
  dispatch clash_tree 0 ["c"] = Ok (Some ["c"]) ∧
  (wrapped ← ComposeHandler (say "c") (node_middlewares clash_tree 0);
   call wrapped demo_input demo_output []) = Ok ["a"; "c"; "A"] ∧
  dispatch demo_tree 1 ["h"] = Ok (Some ["b1"; "h"; "B1"]) ∧
  (wrapped ← ComposeHandler (say "h") (node_middlewares demo_tree 1);
   call wrapped demo_input demo_output []) =
    Ok ["b0"; "b1"; "h"; "B1"; "B0"].
Proof. repeat split; vm_compute; reflexivity. Qed.

(** ** Instances of the general theorems *)

Lemma Match_single_key_witness :
  wf_store clash_tree ∧
  nodes clash_tree !! 0 =
    Some (mkChord (<["c" := say "c"]> ∅) (<["d" := Some 1]> ∅) (mkSlice (Some 0) 1)) ∧
  eval (Match (Some 0) ["c"]) clash_tree =
    (wrapped ← WrapThreads (say "c") [around "a" "A"]; Ok (wrapped, true)).
Proof.
  split; [exact clash_tree_wf|]. split; [reflexivity|].
  exact (proj1 (Match_single_key clash_tree 0 _ "c" clash_tree_wf eq_refl)).
Defined.

Lemma Match_missing_child_witness :
  nodes clash_tree !! 0 =
    Some (mkChord (<["c" := say "c"]> ∅) (<["d" := Some 1]> ∅) (mkSlice (Some 0) 1)) ∧
  (<["d" := Some 1]> ∅ : gmap string (option loc)) !! "c" = None ∧
  Match (Some 0) ["c"; "h"] clash_tree = Ok ((None, false), clash_tree).
Proof.
  split; [reflexivity|]. split; [reflexivity|].
  exact (Match_missing_child clash_tree 0 _ "c" "h" [] eq_refl eq_refl).
Defined.

Lemma Unregister_by_key_witness :
  nodes clash_tree !! 0 =
    Some (mkChord (<["c" := say "c"]> ∅) (<["d" := Some 1]> ∅) (mkSlice (Some 0) 1)) ∧
  ∃ σ',
    Unregister (Some 0) "c" (say "c") clash_tree = Ok (tt, σ') ∧
    Unregister (Some 0) "c" (say "other") clash_tree = Ok (tt, σ') ∧
    Unregister (Some 0) "c" None clash_tree = Ok (tt, σ') ∧
    eval (FetchThread (Some 0) "c") σ' = Ok (None, false).
Proof.
  split; [reflexivity|].
  destruct (Unregister_by_key clash_tree 0 _ "c" eq_refl)
    as (σ' & Hany & _ & Hgone & _).
  exists σ'. repeat split; [apply Hany ..|exact Hgone].
Defined.

Lemma Register_overwrites_witness :
  nodes two_chords !! 0 = Some empty_Chord ∧
  eval (_ ← Register (Some 0) "k" (say "A") [];
        _ ← Register (Some 0) "k" (say "B") [];
        FetchThread (Some 0) "k") two_chords = Ok (say "B", true).
Proof.
  split; [reflexivity|].
  exact (Register_overwrites two_chords 0 _ "k" (say "A") (say "B") eq_refl).
Defined.

Lemma FetchMiddlewares_copy_witness :
  wf_store demo_tree ∧
  nodes demo_tree !! 0 =
    Some (mkChord ∅ (<["c" := Some 1]> ∅) (mkSlice (Some 0) 2)) ∧
  ∃ md σ1,
    FetchMiddlewares (Some 0) demo_tree = Ok (md, σ1) ∧
    slice_elems σ1 md = [around "a0" "A0"; around "a1" "A1"] ∧
    ∃ σ2,
      Use (Some 0) [around "z" "Z"] σ1 = Ok (tt, σ2) ∧
      node_middlewares σ2 0 =
        [around "a0" "A0"; around "a1" "A1"; around "z" "Z"] ∧
      slice_elems σ2 md = [around "a0" "A0"; around "a1" "A1"].
Proof.
  split; [exact demo_tree_wf|]. split; [reflexivity|].
  destruct (FetchMiddlewares_copy demo_tree 0 _ demo_tree_wf eq_refl)
    as (md & σ1 & Hfetch & Hcopy & _ & HUse & _).
  exists md, σ1. split; [exact Hfetch|]. split; [exact Hcopy|].
  exact (HUse [around "z" "Z"]).
Defined.

Lemma Unregister_Unmount_absent_witness :
  nodes clash_tree !! 0 =
    Some (mkChord (<["c" := say "c"]> ∅) (<["d" := Some 1]> ∅) (mkSlice (Some 0) 1)) ∧
  (<["c" := say "c"]> ∅ : gmap string Thread) !! "x" = None ∧
  (<["d" := Some 1]> ∅ : gmap string (option loc)) !! "x" = None ∧
  Unregister (Some 0) "x" (say "c") clash_tree = Ok (tt, clash_tree) ∧
  Unmount (Some 0) "x" clash_tree = Ok (tt, clash_tree).
Proof.
  split; [reflexivity|]. split; [reflexivity|]. split; [reflexivity|].
  destruct (Unregister_Unmount_absent clash_tree 0 _ "x" eq_refl)
    as [Hunreg Hunmount].
  split; [exact (Hunreg eq_refl (say "c"))|exact (Hunmount eq_refl)].
Defined.


End Examples.

(** * Further properties of the registry, of [WrapThreads] and of [Match] *)

Section Registry.
Context `{RT : Runtime}.
Implicit Types (σ : Store) (s md : slice) (n : Chord) (l a : loc)
  (thread : Thread) (tw ws : list ThreadWrapper) (key : string)
  (chord : option loc).

Ltac unfold_M :=
  unfold eval, exec, mbind, M_bind, mret, M_ret, lift, fmap, res_fmap, res_bind, res_ret in *.

(** ** Helper equations *)



Lemma Register_wrapped_spec σ l n key thread tw wrapped :
  nodes σ !! l = Some n →
  WrapThreads thread tw = Ok wrapped →
  Register (Some l) key thread tw σ =
    Ok (tt, mkStore
              (<[l := mkChord (<[key := wrapped]> (threads n)) (chords n) (middlewares n)]>
                 (nodes σ))
              (arrays σ)).
Proof.
  intros Hl Hw. unfold Register, deref, assign. unfold_M. by rewrite Hw, Hl.
Qed.

Lemma Mount_spec σ l n key chord :
  nodes σ !! l = Some n →
  Mount (Some l) key chord σ =
    Ok (tt, mkStore
              (<[l := mkChord (threads n) (<[key := chord]> (chords n)) (middlewares n)]>
                 (nodes σ))
              (arrays σ)).
Proof.
  intros Hl. unfold Mount, deref, assign. unfold_M. by rewrite Hl.
Qed.

(** Replacing the chord at [l] by one with the same middlewares. *)
Lemma node_middlewares_assign σ l n n' l' :
  nodes σ !! l = Some n →
  middlewares n' = middlewares n →
  node_middlewares (mkStore (<[l := n']> (nodes σ)) (arrays σ)) l' =
    node_middlewares σ l'.
Proof.
  intros Hl Hmw. unfold node_middlewares. simpl.
  rewrite lookup_insert. case_decide as Hll; [|done].
  subst l'. rewrite Hl, Hmw. done.
Qed.

(** ** Mount, Unmount and FetchChord *)

(** X1: after [Mount(key, chord)] on an existing chord, [FetchChord(key)]
    returns [chord], found, even when [chord] is nil; the children under the
    other keys, the handlers under every key and the middlewares of the chord
    are as before. *)
Theorem Mount_then_FetchChord σ l n key chord :
  nodes σ !! l = Some n →
  ∃ σ',
    Mount (Some l) key chord σ = Ok (tt, σ') ∧
    eval (FetchChord (Some l) key) σ' = Ok (chord, true) ∧
    (∀ key', key' ≠ key →
       eval (FetchChord (Some l) key') σ' = eval (FetchChord (Some l) key') σ) ∧
    (∀ key', eval (FetchThread (Some l) key') σ' = eval (FetchThread (Some l) key') σ) ∧
    (∀ l', node_middlewares σ' l' = node_middlewares σ l').
Proof.
  intros Hl. eexists. split; [by apply Mount_spec|].
  split; [|split; [|split]].
  - unfold eval. erewrite FetchChord_spec by (simpl; apply lookup_insert_eq).
    simpl. by rewrite lookup_insert_eq.
  - intros key' Hne. unfold eval.
    erewrite FetchChord_spec by (simpl; apply lookup_insert_eq).
    rewrite (FetchChord_spec σ l n) by done.
    simpl. by rewrite lookup_insert_ne.
  - intros key'. unfold eval.
    erewrite FetchThread_spec by (simpl; apply lookup_insert_eq).
    by rewrite (FetchThread_spec σ l n) by done.
  - intros l'. by apply (node_middlewares_assign σ l n).
Qed.

(** X2: after [Unmount(key)] on an existing chord, [FetchChord(key)] reports
    not-found; the children under the other keys and the handlers under
    every key, [key] included, are as before. *)
Theorem Unmount_then_FetchChord σ l n key :
  nodes σ !! l = Some n →
  ∃ σ',
    Unmount (Some l) key σ = Ok (tt, σ') ∧
    eval (FetchChord (Some l) key) σ' = Ok (None, false) ∧
    (∀ key', key' ≠ key →
       eval (FetchChord (Some l) key') σ' = eval (FetchChord (Some l) key') σ) ∧
    (∀ key', eval (FetchThread (Some l) key') σ' = eval (FetchThread (Some l) key') σ).
Proof.
  intros Hl. eexists. split; [by apply Unmount_spec|]. split; [|split].
  - unfold eval. erewrite FetchChord_spec by (simpl; apply lookup_insert_eq).
    simpl. by rewrite lookup_delete_eq.
  - intros key' Hne. unfold eval.
    erewrite FetchChord_spec by (simpl; apply lookup_insert_eq).
    rewrite (FetchChord_spec σ l n) by done.
    simpl. by rewrite lookup_delete_ne.
  - intros key'. unfold eval.
    erewrite FetchThread_spec by (simpl; apply lookup_insert_eq).
    by rewrite (FetchThread_spec σ l n) by done.
Qed.


(** ** Register with wrappers *)


(** X5: handlers and children live in separate maps. [Register] and
    [Unregister] leave the child found under every key as it was, and after
    [Register(key, thread)] and [Mount(key, chord)] on the same key the chord
    holds both: [FetchThread(key)] returns [thread] and [FetchChord(key)]
    returns [chord]. *)
Theorem handlers_children_independent σ l n key thread chord :
  nodes σ !! l = Some n →
  (∀ tw σ' key', Register (Some l) key thread tw σ = Ok (tt, σ') →
     eval (FetchChord (Some l) key') σ' = eval (FetchChord (Some l) key') σ) ∧
  (∀ σ' key', Unregister (Some l) key thread σ = Ok (tt, σ') →
     eval (FetchChord (Some l) key') σ' = eval (FetchChord (Some l) key') σ) ∧
  eval (_ ← Register (Some l) key thread [];
        _ ← Mount (Some l) key chord;
        t ← FetchThread (Some l) key;
        c ← FetchChord (Some l) key;
        mret (t, c)) σ = Ok ((thread, true), (chord, true)).
Proof.
  intros Hl. split; [|split].
  - intros tw σ' key'.
    destruct (WrapThreads thread tw) as [wrapped|] eqn:Hw.
    + rewrite (Register_wrapped_spec _ _ _ _ _ _ _ Hl Hw). intros [= <-].
      unfold eval. erewrite FetchChord_spec by (simpl; apply lookup_insert_eq).
      by rewrite (FetchChord_spec σ l n) by done.
    + unfold Register. unfold_M. by rewrite Hw.
  - intros σ' key'. rewrite (Unregister_spec _ _ _ _ _ Hl). intros [= <-].
    unfold eval. erewrite FetchChord_spec by (simpl; apply lookup_insert_eq).
    by rewrite (FetchChord_spec σ l n) by done.
  - unfold eval. unfold mbind at 1. unfold M_bind.
    rewrite (Register_spec _ _ _ _ _ Hl).
    unfold mbind at 1. unfold M_bind.
    erewrite Mount_spec by (simpl; apply lookup_insert_eq).
    unfold mbind at 1. unfold M_bind.
    erewrite FetchThread_spec by (simpl; apply lookup_insert_eq).
    unfold mbind at 1. unfold M_bind.
    erewrite FetchChord_spec by (simpl; apply lookup_insert_eq).
    simpl. by rewrite !lookup_insert_eq.
Qed.

(** ** WrapThreads *)


(** ** RegisterWrapped *)



End Registry.

Section Middlewares.
Context `{RT : Runtime}.
Implicit Types (σ : Store) (s md : slice) (n : Chord) (l a : loc)
  (thread : Thread) (tw ws : list ThreadWrapper) (key : string)
  (chord : option loc).

Ltac unfold_M :=
  unfold eval, exec, mbind, M_bind, mret, M_ret, lift, fmap, res_fmap, res_bind, res_ret in *.

(** The chord [Use] leaves at [l]: same handlers and children. *)
Lemma Use_node σ l n tw σ' :
  wf_store σ →
  nodes σ !! l = Some n →
  Use (Some l) tw σ = Ok (tt, σ') →
  wf_store σ' ∧
  node_middlewares σ' l = node_middlewares σ l ++ tw ∧
  ∃ s', nodes σ' = <[l := mkChord (threads n) (chords n) s']> (nodes σ) ∧
        (s_arr s' = s_arr (middlewares n) ∨
         ∃ a, s_arr s' = Some a ∧ arrays σ !! a = None).
Proof.
  intros Hwf Hl HUse.
  destruct (Use_spec σ l n tw Hwf Hl) as (σ2 & HUse' & Hwf' & Happ & _ & Hnode).
  rewrite HUse in HUse'. injection HUse' as <-. done.
Qed.

(** ** Use *)

(** X8: [Use] returns on every existing chord and appends: after [Use(tw1...)]
    the middlewares of the chord are the old ones followed by [tw1], after a
    second [Use(tw2...)] they are the old ones followed by [tw1] and [tw2].
    The handlers and children of the chord are as before. *)
Theorem Use_appends σ l n tw1 tw2 :
  wf_store σ →
  nodes σ !! l = Some n →
  ∃ σ1 σ2,
    Use (Some l) tw1 σ = Ok (tt, σ1) ∧
    Use (Some l) tw2 σ1 = Ok (tt, σ2) ∧
    node_middlewares σ1 l = node_middlewares σ l ++ tw1 ∧
    node_middlewares σ2 l = node_middlewares σ l ++ tw1 ++ tw2 ∧
    (∀ key, eval (FetchThread (Some l) key) σ2 = eval (FetchThread (Some l) key) σ) ∧
    (∀ key, eval (FetchChord (Some l) key) σ2 = eval (FetchChord (Some l) key) σ).
Proof.
  intros Hwf Hl.
  destruct (Use_spec σ l n tw1 Hwf Hl) as (σ1 & HUse1 & _).
  destruct (Use_node _ _ _ _ _ Hwf Hl HUse1) as (Hwf1 & Happ1 & s1 & Hn1 & _).
  assert (Hl1 : nodes σ1 !! l = Some (mkChord (threads n) (chords n) s1)).
  { rewrite Hn1. apply lookup_insert_eq. }
  destruct (Use_spec σ1 l _ tw2 Hwf1 Hl1) as (σ2 & HUse2 & _).
  destruct (Use_node _ _ _ _ _ Hwf1 Hl1 HUse2) as (Hwf2 & Happ2 & s2 & Hn2 & _).
  assert (Hl2 : nodes σ2 !! l = Some (mkChord (threads n) (chords n) s2)).
  { rewrite Hn2. apply lookup_insert_eq. }
  exists σ1, σ2. split; [done|]. split; [done|]. split; [done|].
  split; [by rewrite Happ2, Happ1, app_assoc|]. split.
  - intros key. unfold eval.
    by rewrite (FetchThread_spec _ _ _ _ Hl2), (FetchThread_spec _ _ _ _ Hl).
  - intros key. unfold eval.
    by rewrite (FetchChord_spec _ _ _ _ Hl2), (FetchChord_spec _ _ _ _ Hl).
Qed.

(** X9: [Use()] with no wrappers leaves the whole store as it was. *)
Theorem Use_nothing σ l n :
  wf_store σ →
  nodes σ !! l = Some n →
  Use (Some l) [] σ = Ok (tt, σ).
Proof.
  intros Hwf Hl. pose proof (wf_store_lookup _ _ _ Hwf Hl) as Hs.
  unfold Use, deref, append, assign. unfold_M. rewrite Hl. simpl.
  unfold wf_slice in Hs. unfold slice_cap.
  destruct n as [ths chs [[a|] len]]; simpl in *.
  - destruct (arrays σ !! a) as [arr|] eqn:Ha; [|done]. simpl.
    rewrite decide_True by lia. simpl.
    rewrite Nat.add_0_r, insert_id by done.
    rewrite alter_id; [by rewrite Store_eta|].
    intros old _. simpl. apply take_drop.
  - subst len. simpl. rewrite insert_id by done. by rewrite Store_eta.
Qed.

(** X10: in a store where no two chords share the backing array of their
    middlewares, [Use] on one chord leaves the middlewares of every other
    chord as they were, and no two chords share a backing array afterwards. *)
Theorem Use_other_chords σ l n tw :
  wf_store σ →
  unshared σ →
  nodes σ !! l = Some n →
  ∃ σ',
    Use (Some l) tw σ = Ok (tt, σ') ∧
    (∀ l', l' ≠ l → node_middlewares σ' l' = node_middlewares σ l') ∧
    wf_store σ' ∧ unshared σ'.
Proof.
  intros Hwf Hun Hl.
  destruct (Use_spec σ l n tw Hwf Hl)
    as (σ' & HUse & Hwf' & _ & Hframe & s' & Hnodes & Harr).
  exists σ'. split; [done|]. split; [|split; [done|]].
  - intros l' Hne. unfold node_middlewares.
    rewrite Hnodes, lookup_insert_ne by done.
    destruct (nodes σ !! l') as [n'|] eqn:Hl'; [|done].
    apply slice_elems_ext. intros a Ha. apply Hframe.
    + pose proof (Hwf l' n' Hl') as Hs. unfold wf_slice in Hs.
      rewrite Ha in Hs. by destruct (arrays σ !! a).
    + intros Hn. apply Hne. apply (Hun l' n' Hl' l n Hl); [by rewrite Ha|].
      congruence.
  - intros l1 n1 Hl1 l2 n2 Hl2. rewrite Hnodes in Hl1, Hl2.
    assert (Hfresh : ∀ l0 n0 a, nodes σ !! l0 = Some n0 →
      arrays σ !! a = None → s_arr (middlewares n0) ≠ Some a).
    { intros l0 n0 a Hl0 Ha. eapply wf_slice_alloc; [exact (Hwf l0 n0 Hl0)|done]. }
    destruct (decide (l1 = l)) as [->|E1]; destruct (decide (l2 = l)) as [->|E2];
      [done|..].
    + rewrite lookup_insert_eq in Hl1. rewrite lookup_insert_ne in Hl2 by done.
      injection Hl1 as <-. simpl.
      destruct Harr as [->|(a & -> & Ha)].
      * apply (Hun l n Hl l2 n2 Hl2).
      * intros _ Heq. exfalso. by eapply (Hfresh l2 n2 a).
    + rewrite lookup_insert_eq in Hl2. rewrite lookup_insert_ne in Hl1 by done.
      injection Hl2 as <-. simpl.
      destruct Harr as [->|(a & -> & Ha)].
      * apply (Hun l1 n1 Hl1 l n Hl).
      * intros _ Heq. exfalso. by eapply (Hfresh l1 n1 a).
    + rewrite lookup_insert_ne in Hl1, Hl2 by done.
      apply (Hun l1 n1 Hl1 l2 n2 Hl2).
Qed.

(** X11: middlewares are applied when a path is resolved, not when a handler
    is registered: after [Use(tw...)] on a chord, [Match] on a single key
    passes a handler that was already stored there to [WrapThreads] with the
    old middlewares followed by [tw]. *)
Theorem Use_then_Match σ l n key thread tw :
  wf_store σ →
  nodes σ !! l = Some n →
  threads n !! key = Some thread →
  eval (_ ← Use (Some l) tw; Match (Some l) [key]) σ =
    (wrapped ← WrapThreads thread (node_middlewares σ l ++ tw);
     Ok (wrapped, true)).
Proof.
  intros Hwf Hl Hkey.
  destruct (Use_spec σ l n tw Hwf Hl) as (σ1 & HUse & _).
  destruct (Use_node _ _ _ _ _ Hwf Hl HUse) as (Hwf1 & Happ & s1 & Hn1 & _).
  assert (Hl1 : nodes σ1 !! l = Some (mkChord (threads n) (chords n) s1)).
  { rewrite Hn1. apply lookup_insert_eq. }
  unfold eval. unfold mbind at 1. unfold M_bind. rewrite HUse.
  rewrite (Match_leaf _ _ _ _ Hl1 (wf_store_lookup _ _ _ Hwf1 Hl1)). simpl.
  rewrite Hkey, <- Happ. unfold node_middlewares. rewrite Hl1. simpl.
  unfold mbind, res_bind. by destruct (WrapThreads thread _).
Qed.

(** ** FetchMiddlewares *)

(** X12: [FetchMiddlewares] never returns a nil slice, not even for a chord
    without middlewares: the slice it returns has as many elements as the
    chord has middlewares and no spare capacity, and the chords of the store
    are as before. *)
Theorem FetchMiddlewares_shape σ l n :
  wf_store σ →
  nodes σ !! l = Some n →
  ∃ md σ1,
    FetchMiddlewares (Some l) σ = Ok (md, σ1) ∧
    is_Some (s_arr md) ∧
    s_len md = length (node_middlewares σ l) ∧
    slice_cap σ1 md = s_len md ∧
    nodes σ1 = nodes σ.
Proof.
  intros Hwf Hl. pose proof (wf_store_lookup _ _ _ Hwf Hl) as Hs.
  eexists _, _. split; [by apply FetchMiddlewares_spec|].
  unfold node_middlewares, slice_cap. rewrite Hl. simpl.
  rewrite lookup_insert_eq. simpl.
  rewrite (wf_slice_length _ _ Hs). eauto.
Qed.

End Middlewares.

Section Resolution.
Context `{RT : Runtime}.
Implicit Types (σ : Store) (s md : slice) (n : Chord) (l a : loc)
  (thread : Thread) (tw ws : list ThreadWrapper) (key : string)
  (chord node : option loc) (path rest : list string).

Ltac unfold_M :=
  unfold eval, exec, mbind, M_bind, mret, M_ret, lift, fmap, res_fmap, res_bind, res_ret in *.

(** ** Helper lemmas *)

Lemma node_middlewares_lookup σ l n :
  nodes σ !! l = Some n → node_middlewares σ l = slice_elems σ (middlewares n).
Proof. intros Hl. unfold node_middlewares. by rewrite Hl. Qed.

Lemma Match_frame_middlewares path node σ r σ' :
  wf_store σ →
  Match node path σ = Ok (r, σ') →
  wf_store σ' ∧ nodes σ' = nodes σ ∧
  ∀ l, node_middlewares σ' l = node_middlewares σ l.
Proof.
  intros Hwf HM.
  destruct (Match_frame _ _ _ _ _ Hwf HM) as (Hwf' & Hnodes & Hframe).
  split; [done|]. split; [done|]. intros l.
  unfold node_middlewares. rewrite Hnodes.
  destruct (nodes σ !! l) as [n|] eqn:Hl; [|done].
  apply slice_elems_ext. intros a Ha. apply Hframe.
  pose proof (Hwf l n Hl) as Hs. unfold wf_slice in Hs. rewrite Ha in Hs.
  by destruct (arrays σ !! a).
Qed.

Lemma M_bind_Ok {A B} (m : M A) (f : A → M B) σ x σ1 :
  m σ = Ok (x, σ1) → (m ≫= f) σ = f x σ1.
Proof. intros Hm. unfold mbind, M_bind. by rewrite Hm. Qed.

Lemma M_bind_Panic {A B} (m : M A) (f : A → M B) σ :
  m σ = Panic → (m ≫= f) σ = Panic.
Proof. intros Hm. unfold mbind, M_bind. by rewrite Hm. Qed.

Lemma Match_nil_node key rest σ : Match None (key :: rest) σ = Panic.
Proof. by destruct rest. Qed.

Lemma Match_dangling_node l key rest σ :
  nodes σ !! l = None → Match (Some l) (key :: rest) σ = Panic.
Proof.
  intros Hl. destruct rest; simpl; unfold FetchThread, FetchChord, deref;
    unfold_M; by rewrite Hl.
Qed.

Lemma Match_missing_child_aux σ l n key key' rest :
  nodes σ !! l = Some n →
  chords n !! key = None →
  Match (Some l) (key :: key' :: rest) σ = Ok ((None, false), σ).
Proof.
  intros Hl Hc. rewrite Match_unfold. unfold mbind, M_bind.
  by rewrite (FetchChord_spec _ _ _ _ Hl), Hc.
Qed.

(** ** What Match leaves behind *)


(** ** Found, not found, panics *)

(** X14: when [Match] returns, it reports found exactly when the path leads
    somewhere: every key but the last names a chord mounted in the chord
    reached so far and the last names a handler of the chord reached. *)
Theorem Match_found_iff_resolves path σ l r σ' :
  wf_store σ →
  Match (Some l) path σ = Ok (r, σ') →
  r.2 = true ↔ resolves σ l path.
Proof.
  intros Hwf. revert l r σ'.
  induction path as [|key rest IH]; intros l r σ'.
  { intros [= <- <-]. simpl. split; [done|tauto]. }
  destruct (nodes σ !! l) as [n|] eqn:Hl;
    [|by rewrite Match_dangling_node].
  pose proof (wf_store_lookup _ _ _ Hwf Hl) as Hs.
  destruct rest as [|key' rest].
  - rewrite (Match_leaf _ _ _ _ Hl Hs). simpl. rewrite Hl.
    destruct (threads n !! key) as [thread|].
    + destruct (WrapThreads thread _) as [wrapped|]; [|done].
      intros [= <- <-]. simpl. split; eauto.
    + intros [= <- <-]. simpl. split; [done|]. by intros [? ?].
  - rewrite Match_unfold. rewrite (M_bind_Ok _ _ σ _ _ (FetchChord_spec _ _ _ _ Hl)).
    change (resolves σ l (key :: key' :: rest)) with
      (match nodes σ !! l with
       | Some n =>
           match chords n !! key with
           | Some (Some lc) => resolves σ lc (key' :: rest)
           | _ => False
           end
       | None => False
       end).
    rewrite Hl.
    destruct (chords n !! key) as [chord|] eqn:Hkey; cbn [negb].
    2:{ intros [= <- <-]. simpl. split; [done|tauto]. }
    destruct chord as [lc|].
    2:{ by rewrite (M_bind_Panic _ _ σ (Match_nil_node _ _ _)). }
    destruct (Match (Some lc) (key' :: rest) σ) as [[[t ok] σ1]|] eqn:HM.
    2:{ by rewrite (M_bind_Panic _ _ σ HM). }
    pose proof (IH lc _ _ HM) as Hiff. simpl in Hiff.
    rewrite (M_bind_Ok _ _ σ _ _ HM).
    destruct ok; cbn [negb].
    2:{ intros [= <- <-]. simpl. by rewrite <- Hiff. }
    destruct (Match_frame_middlewares _ _ _ _ _ Hwf HM) as (Hwf1 & Hn1 & Hmw1).
    destruct (nodes σ1 !! lc) as [nc|] eqn:Hlc1.
    2:{ unfold FetchMiddlewares, deref. unfold_M. by rewrite Hlc1. }
    rewrite (wrap_with_snapshot _ _ _ _ Hlc1 (wf_store_lookup _ _ _ Hwf1 Hlc1)).
    destruct (WrapThreads t _) as [wrapped|]; [|done].
    intros [= <- <-]. simpl. by rewrite <- Hiff.
Qed.


(** X15: nil pointers make [Match] panic instead of reporting not-found: on
    a nil node with a non-empty path, and on a path of two keys or more
    whose first key has a nil chord mounted under it. *)
Theorem Match_nil_chord_panics σ l n key key' rest :
  nodes σ !! l = Some n →
  chords n !! key = Some None →
  Match (Some l) (key :: key' :: rest) σ = Panic ∧
  Match None (key :: rest) σ = Panic.
Proof.
  intros Hl Hkey. split; [|apply Match_nil_node].
  rewrite Match_unfold. unfold mbind at 1. unfold M_bind at 1.
  rewrite (FetchChord_spec _ _ _ _ Hl), Hkey. cbn [negb].
  unfold mbind at 1. unfold M_bind at 1. by rewrite Match_nil_node.
Qed.

(** ** Not-found and the first key *)

(** X16: not-found is passed up unchanged: when the rest of the path does
    not resolve in the child mounted under the first key, [Match] reports
    not-found with a nil thread, whatever thread came back with the
    failure. *)
Theorem Match_propagates_not_found σ l n key key' rest chord t σ1 :
  nodes σ !! l = Some n →
  chords n !! key = Some chord →
  Match chord (key' :: rest) σ = Ok ((t, false), σ1) →
  Match (Some l) (key :: key' :: rest) σ = Ok ((None, false), σ1).
Proof.
  intros Hl Hkey HM.
  rewrite Match_unfold. unfold mbind at 1. unfold M_bind at 1.
  rewrite (FetchChord_spec _ _ _ _ Hl), Hkey. cbn [negb].
  unfold mbind at 1. unfold M_bind at 1. by rewrite HM.
Qed.

(** X17: on a path of two keys or more, the chord a resolution starts from
    matters only through the child it mounts under the first key: two chords
    that mount the same child there resolve the path alike, whatever their
    own handlers and middlewares. *)
Theorem Match_same_child σ l1 l2 n1 n2 key key' rest :
  nodes σ !! l1 = Some n1 →
  nodes σ !! l2 = Some n2 →
  chords n1 !! key = chords n2 !! key →
  Match (Some l1) (key :: key' :: rest) σ =
    Match (Some l2) (key :: key' :: rest) σ.
Proof.
  intros Hl1 Hl2 Hkey. rewrite !Match_unfold.
  rewrite (M_bind_Ok _ _ σ _ _ (FetchChord_spec _ _ _ _ Hl1)).
  rewrite (M_bind_Ok _ _ σ _ _ (FetchChord_spec _ _ _ _ Hl2)).
  by rewrite Hkey.
Qed.

(** X18: a chord with no middleware, or with a single one, resolves a key
    to the very handler stored under it: [WrapThreads] has nothing to apply
    but a first wrapper. *)
Theorem Match_at_most_one_middleware σ l n key thread :
  wf_store σ →
  nodes σ !! l = Some n →
  threads n !! key = Some thread →
  length (node_middlewares σ l) ≤ 1 →
  eval (Match (Some l) [key]) σ = Ok (thread, true).
Proof.
  intros Hwf Hl Hkey Hlen. unfold eval.
  rewrite (Match_leaf _ _ _ _ Hl (wf_store_lookup _ _ _ Hwf Hl)), Hkey.
  rewrite (node_middlewares_lookup _ _ _ Hl) in Hlen.
  destruct (slice_elems σ (middlewares n)) as [|w0 [|w1 ws]]; simpl in Hlen;
    [done|done|lia].
Qed.

(** X19: removals are seen by the next resolution: after [Unregister(key)]
    the path [key] is not found, and after [Unmount(key)] no path of two
    keys or more that starts with [key] is found. *)
Theorem removal_then_Match σ l n key key' rest thread :
  nodes σ !! l = Some n →
  eval (_ ← Unregister (Some l) key thread; Match (Some l) [key]) σ
    = Ok (None, false) ∧
  eval (_ ← Unmount (Some l) key; Match (Some l) (key :: key' :: rest)) σ
    = Ok (None, false).
Proof.
  intros Hl. split; unfold eval; unfold mbind at 1; unfold M_bind at 1.
  - rewrite (Unregister_spec _ _ _ _ _ Hl). simpl.
    unfold mbind at 1. unfold M_bind at 1.
    erewrite FetchThread_spec by (simpl; apply lookup_insert_eq).
    simpl. by rewrite lookup_delete_eq.
  - rewrite (Unmount_spec _ _ _ _ Hl).
    erewrite Match_missing_child_aux; [done|simpl; apply lookup_insert_eq|].
    simpl. apply lookup_delete_eq.
Qed.

End Resolution.

(** * Instances of the further properties *)

Section MoreExamples.
#[local] Existing Instance log_runtime.

Ltac solve_map_Forall tac :=
  repeat first [apply map_Forall_empty | apply map_Forall_insert_2]; tac.

Lemma demo_tree_unshared : unshared demo_tree.
Proof.
  unfold unshared. simpl.
  solve_map_Forall ltac:(simpl; intros; congruence).
Qed.




Lemma nil_child_tree_wf : wf_store nil_child_tree.
Proof.
  unfold wf_store. simpl. solve_map_Forall ltac:(vm_compute; lia).
Qed.

Lemma shared_child_tree_wf : wf_store shared_child_tree.
Proof.
  unfold wf_store. simpl. solve_map_Forall ltac:(vm_compute; lia).
Qed.

Lemma demo_tree_resolves :
  ∃ r σ', Match (Some 0) ["c"; "h"] demo_tree = Ok (r, σ').
Proof.
  destruct (Match (Some 0) ["c"; "h"] demo_tree) as [[r σ']|] eqn:HM;
    [by eexists _, _|].
  exfalso. vm_compute in HM. discriminate.
Qed.

Lemma Mount_then_FetchChord_witness :
  nodes clash_tree !! 0 =
    Some (mkChord (<["c" := say "c"]> ∅) (<["d" := Some 1]> ∅) (mkSlice (Some 0) 1)) ∧
  ∃ σ',
    Mount (Some 0) "c" None clash_tree = Ok (tt, σ') ∧
    eval (FetchChord (Some 0) "c") σ' = Ok (None, true) ∧
    eval (FetchChord (Some 0) "d") σ' = Ok (Some 1, true) ∧
    eval (FetchThread (Some 0) "c") σ' = Ok (say "c", true).
Proof.
  split; [reflexivity|].
  destruct (Mount_then_FetchChord clash_tree 0 _ "c" None eq_refl)
    as (σ' & HMount & Hkey & Hother & Hthreads & _).
  exists σ'. split; [exact HMount|]. split; [exact Hkey|]. split.
  - rewrite (Hother "d") by done. reflexivity.
  - rewrite (Hthreads "c"). reflexivity.
Defined.

Lemma Unmount_then_FetchChord_witness :
  nodes clash_tree !! 0 =
    Some (mkChord (<["c" := say "c"]> ∅) (<["d" := Some 1]> ∅) (mkSlice (Some 0) 1)) ∧
  ∃ σ',
    Unmount (Some 0) "d" clash_tree = Ok (tt, σ') ∧
    eval (FetchChord (Some 0) "d") σ' = Ok (None, false) ∧
    eval (FetchThread (Some 0) "c") σ' = Ok (say "c", true).
Proof.
  split; [reflexivity|].
  destruct (Unmount_then_FetchChord clash_tree 0 _ "d" eq_refl)
    as (σ' & HUnmount & Hkey & _ & Hthreads).
  exists σ'. split; [exact HUnmount|]. split; [exact Hkey|].
  rewrite (Hthreads "c"). reflexivity.
Defined.



Lemma handlers_children_independent_witness :
  nodes two_chords !! 0 = Some empty_Chord ∧
  eval (_ ← Register (Some 0) "k" (say "h") [];
        _ ← Mount (Some 0) "k" (Some 1);
        t ← FetchThread (Some 0) "k";
        c ← FetchChord (Some 0) "k";
        mret (t, c)) two_chords = Ok ((say "h", true), (Some 1, true)).
Proof.
  split; [reflexivity|].
  exact (proj2 (proj2 (handlers_children_independent two_chords 0 _ "k"
                         (say "h") (Some 1) eq_refl))).
Defined.



(** A middleware that is not nil but panics when called makes [WrapThreads],
    hence [Match], panic. *)
Lemma Match_panicking_middleware :
  WrapThreads (say "h") [around "a" "A"; panicking] = Panic ∧
  Match (Some 0) ["h"] panicking_tree = Panic.
Proof. split; reflexivity. Qed.

Lemma Use_appends_witness :
  wf_store demo_tree ∧
  nodes demo_tree !! 0 =
    Some (mkChord ∅ (<["c" := Some 1]> ∅) (mkSlice (Some 0) 2)) ∧
  ∃ σ1 σ2,
    Use (Some 0) [around "y" "Y"] demo_tree = Ok (tt, σ1) ∧
    Use (Some 0) [around "z" "Z"] σ1 = Ok (tt, σ2) ∧
    node_middlewares σ2 0 =
      [around "a0" "A0"; around "a1" "A1"; around "y" "Y"; around "z" "Z"].
Proof.
  split; [exact demo_tree_wf|]. split; [reflexivity|].
  destruct (Use_appends demo_tree 0 _ [around "y" "Y"] [around "z" "Z"]
              demo_tree_wf eq_refl)
    as (σ1 & σ2 & HUse1 & HUse2 & _ & Happ & _).
  exists σ1, σ2. split; [exact HUse1|]. split; [exact HUse2|exact Happ].
Defined.

Lemma Use_nothing_witness :
  wf_store demo_tree ∧
  nodes demo_tree !! 0 =
    Some (mkChord ∅ (<["c" := Some 1]> ∅) (mkSlice (Some 0) 2)) ∧
  Use (Some 0) [] demo_tree = Ok (tt, demo_tree).
Proof.
  split; [exact demo_tree_wf|]. split; [reflexivity|].
  exact (Use_nothing demo_tree 0 _ demo_tree_wf eq_refl).
Defined.

Lemma Use_other_chords_witness :
  wf_store demo_tree ∧ unshared demo_tree ∧
  nodes demo_tree !! 0 =
    Some (mkChord ∅ (<["c" := Some 1]> ∅) (mkSlice (Some 0) 2)) ∧
  ∃ σ',
    Use (Some 0) [around "z" "Z"] demo_tree = Ok (tt, σ') ∧
    node_middlewares σ' 1 = [around "b0" "B0"; around "b1" "B1"] ∧
    unshared σ'.
Proof.
  split; [exact demo_tree_wf|]. split; [exact demo_tree_unshared|].
  split; [reflexivity|].
  destruct (Use_other_chords demo_tree 0 _ [around "z" "Z"]
              demo_tree_wf demo_tree_unshared eq_refl)
    as (σ' & HUse & Hother & _ & Hun).
  exists σ'. split; [exact HUse|]. split; [|exact Hun].
  rewrite (Hother 1) by done. reflexivity.
Defined.

Lemma Use_then_Match_witness :
  wf_store demo_tree ∧
  nodes demo_tree !! 1 =
    Some (mkChord (<["h" := say "h"]> ∅) ∅ (mkSlice (Some 1) 2)) ∧
  (<["h" := say "h"]> ∅ : gmap string Thread) !! "h" = Some (say "h") ∧
  eval (_ ← Use (Some 1) [around "z" "Z"]; Match (Some 1) ["h"]) demo_tree =
    (wrapped ← WrapThreads (say "h")
                 [around "b0" "B0"; around "b1" "B1"; around "z" "Z"];
     Ok (wrapped, true)).
Proof.
  split; [exact demo_tree_wf|]. split; [reflexivity|]. split; [reflexivity|].
  exact (Use_then_Match demo_tree 1 _ "h" (say "h") [around "z" "Z"]
           demo_tree_wf eq_refl eq_refl).
Defined.

Lemma FetchMiddlewares_shape_witness :
  wf_store two_chords ∧
  nodes two_chords !! 0 = Some empty_Chord ∧
  ∃ md σ1,
    FetchMiddlewares (Some 0) two_chords = Ok (md, σ1) ∧
    is_Some (s_arr md) ∧ s_len md = 0.
Proof.
  split; [exact two_chords_wf|]. split; [reflexivity|].
  destruct (FetchMiddlewares_shape two_chords 0 _ two_chords_wf eq_refl)
    as (md & σ1 & Hfetch & Hptr & Hlen & _).
  exists md, σ1. split; [exact Hfetch|]. split; [exact Hptr|exact Hlen].
Defined.


Lemma Match_found_iff_resolves_witness :
  wf_store demo_tree ∧
  ∃ r σ',
    Match (Some 0) ["c"; "h"] demo_tree = Ok (r, σ') ∧ r.2 = true.
Proof.
  split; [exact demo_tree_wf|].
  destruct demo_tree_resolves as (r & σ' & HM).
  exists r, σ'. split; [exact HM|].
  apply (Match_found_iff_resolves ["c"; "h"] demo_tree 0 r σ' demo_tree_wf HM).
  vm_compute. by eexists.
Defined.


Lemma Match_nil_chord_panics_witness :
  nodes nil_child_tree !! 0 = Some (mkChord ∅ (<["c" := None]> ∅) nil_slice) ∧
  (<["c" := None]> ∅ : gmap string (option loc)) !! "c" = Some None ∧
  Match (Some 0) ["c"; "h"] nil_child_tree = Panic.
Proof.
  split; [reflexivity|]. split; [reflexivity|].
  exact (proj1 (Match_nil_chord_panics nil_child_tree 0 _ "c" "h" []
                  eq_refl eq_refl)).
Defined.

Lemma Match_propagates_not_found_witness :
  nodes demo_tree !! 0 =
    Some (mkChord ∅ (<["c" := Some 1]> ∅) (mkSlice (Some 0) 2)) ∧
  (<["c" := Some 1]> ∅ : gmap string (option loc)) !! "c" = Some (Some 1) ∧
  Match (Some 1) ["x"] demo_tree = Ok ((None, false), demo_tree) ∧
  Match (Some 0) ["c"; "x"] demo_tree = Ok ((None, false), demo_tree).
Proof.
  split; [reflexivity|]. split; [reflexivity|]. split; [reflexivity|].
  exact (Match_propagates_not_found demo_tree 0 _ "c" "x" [] (Some 1) None
           demo_tree eq_refl eq_refl eq_refl).
Defined.

Lemma Match_same_child_witness :
  nodes shared_child_tree !! 0 =
    Some (mkChord (<["x" := say "x"]> ∅) (<["c" := Some 1]> ∅) (mkSlice (Some 0) 2)) ∧
  nodes shared_child_tree !! 2 =
    Some (mkChord ∅ (<["c" := Some 1]> ∅) nil_slice) ∧
  (<["c" := Some 1]> ∅ : gmap string (option loc)) !! "c" =
    (<["c" := Some 1]> ∅ : gmap string (option loc)) !! "c" ∧
  Match (Some 0) ["c"; "h"] shared_child_tree =
    Match (Some 2) ["c"; "h"] shared_child_tree.
Proof.
  split; [reflexivity|]. split; [reflexivity|]. split; [reflexivity|].
  exact (Match_same_child shared_child_tree 0 2 _ _ "c" "h" []
           eq_refl eq_refl eq_refl).
Defined.

Lemma Match_at_most_one_middleware_witness :
  wf_store clash_tree ∧
  nodes clash_tree !! 0 =
    Some (mkChord (<["c" := say "c"]> ∅) (<["d" := Some 1]> ∅) (mkSlice (Some 0) 1)) ∧
  (<["c" := say "c"]> ∅ : gmap string Thread) !! "c" = Some (say "c") ∧
  length (node_middlewares clash_tree 0) ≤ 1 ∧
  eval (Match (Some 0) ["c"]) clash_tree = Ok (say "c", true).
Proof.
  assert (Hlen : length (node_middlewares clash_tree 0) ≤ 1)
    by (vm_compute; lia).
  split; [exact clash_tree_wf|]. split; [reflexivity|]. split; [reflexivity|].
  split; [exact Hlen|].
  exact (Match_at_most_one_middleware clash_tree 0 _ "c" (say "c")
           clash_tree_wf eq_refl eq_refl Hlen).
Defined.

Lemma removal_then_Match_witness :
  nodes clash_tree !! 0 =
    Some (mkChord (<["c" := say "c"]> ∅) (<["d" := Some 1]> ∅) (mkSlice (Some 0) 1)) ∧
  eval (_ ← Unregister (Some 0) "c" None; Match (Some 0) ["c"]) clash_tree
    = Ok (None, false) ∧
  eval (_ ← Unmount (Some 0) "d"; Match (Some 0) ["d"; "h"]) clash_tree
    = Ok (None, false).
Proof.
  split; [reflexivity|].
  destruct (removal_then_Match clash_tree 0 _ "c" "h" [] None eq_refl)
    as [Hunreg _].
  destruct (removal_then_Match clash_tree 0 _ "d" "h" [] None eq_refl)
    as [_ Hunmount].
  split; [exact Hunreg|exact Hunmount].
Defined.

Lemma demo_child_resolves :
  ∃ thread, eval (Match (Some 1) ["h"]) demo_tree = Ok (thread, true).
Proof.
  destruct (eval (Match (Some 1) ["h"]) demo_tree) as [[thread [|]]|] eqn:HM;
    [by eexists|exfalso; vm_compute in HM; discriminate..].
Qed.

Lemma Match_nested_witness :
  wf_store demo_tree ∧
  nodes demo_tree !! 0 =
    Some (mkChord ∅ (<["c" := Some 1]> ∅) (mkSlice (Some 0) 2)) ∧
  (<["c" := Some 1]> ∅ : gmap string (option loc)) !! "c" = Some (Some 1) ∧
  nodes demo_tree !! 1 =
    Some (mkChord (<["h" := say "h"]> ∅) ∅ (mkSlice (Some 1) 2)) ∧
  ∃ thread,
    eval (Match (Some 1) ["h"]) demo_tree = Ok (thread, true) ∧
    eval (Match (Some 0) ["c"; "h"]) demo_tree =
      (wrapped ← WrapThreads thread [around "b0" "B0"; around "b1" "B1"];
       Ok (wrapped, true)).
Proof.
  split; [exact demo_tree_wf|]. split; [reflexivity|]. split; [reflexivity|].
  split; [reflexivity|].
  destruct demo_child_resolves as [thread HM].
  exists thread. split; [exact HM|].
  exact (Match_nested demo_tree 0 _ "c" "h" [] 1 _ thread
           demo_tree_wf eq_refl eq_refl eq_refl HM).
Defined.

End MoreExamples.
